(** * A shallow embedding of the key-value service (package [kv])

    The development follows the Go sources:
    - [memory]: the in-memory storage engine and its reaper ([gcPhase]);
    - [redis]: the adapter that forwards to a go-redis client;
    - [rpc]: the RPC dispatcher that routes requests by storage name.

    Go conventions used throughout: a slice is an [option (list A)] whose
    [None] is the nil slice; a call returning [(value, error)] is a pair whose
    second component is [None] for a nil error; [int] is a 64-bit integer
    carried by [Z]. *)

From Stdlib Require Import ZArith NArith Ascii String Lia.
From stdpp Require Import base option list gmap strings fin_maps.

Local Open Scope Z_scope.

(** ** Slices *)

Abbreviation slice A := (option (list A)).

(** [range] over a slice visits no element of the nil slice. *)
Definition elems {A} (s : slice A) : list A := default [] s.

(** ** Package [strings]: [TrimSpace] *)

Module strings.

(** The six ASCII white-space bytes: TAB, LF, VT, FF, CR and the blank. *)
Definition asciiSpace (a : ascii) : bool :=
  let n := N_of_ascii a in
  (((9 <=? n) && (n <=? 13)) || (n =? 32))%N.

(** U+0085 and U+00A0 in UTF-8. *)
Definition space2 (a b : ascii) : bool :=
  let '(x, y) := (N_of_ascii a, N_of_ascii b) in
  ((x =? 194) && ((y =? 133) || (y =? 160)))%N.

(** U+1680, U+2000..U+200A, U+2028, U+2029, U+202F, U+205F and U+3000 in
    UTF-8. *)
Definition space3 (a b c : ascii) : bool :=
  let '(x, y, z) := (N_of_ascii a, N_of_ascii b, N_of_ascii c) in
  (((x =? 225) && (y =? 154) && (z =? 128))
   || ((x =? 226) && (y =? 128)
       && (((128 <=? z) && (z <=? 138)) || (z =? 168) || (z =? 169) || (z =? 175)))
   || ((x =? 226) && (y =? 129) && (z =? 159))
   || ((x =? 227) && (y =? 128) && (z =? 128)))%N.

(** Drops the leading white-space runes ([unicode.IsSpace]) of [s]. *)
Fixpoint TrimLeftSpace (s : string) : string :=
  match s with
  | EmptyString => EmptyString
  | String a s1 =>
      if asciiSpace a then TrimLeftSpace s1
      else match s1 with
           | EmptyString => s
           | String b s2 =>
               if space2 a b then TrimLeftSpace s2
               else match s2 with
                    | EmptyString => s
                    | String c s3 =>
                        if space3 a b c then TrimLeftSpace s3 else s
                    end
           end
  end.

(** The same from the end of the string: [r] is the string reversed, so the
    bytes of a rune come last byte first. *)
Fixpoint TrimLeftSpaceRev (r : string) : string :=
  match r with
  | EmptyString => EmptyString
  | String a r1 =>
      if asciiSpace a then TrimLeftSpaceRev r1
      else match r1 with
           | EmptyString => r
           | String b r2 =>
               if space2 b a then TrimLeftSpaceRev r2
               else match r2 with
                    | EmptyString => r
                    | String c r3 =>
                        if space3 c b a then TrimLeftSpaceRev r3 else r
                    end
           end
  end.

Definition TrimRightSpace (s : string) : string :=
  String.rev (TrimLeftSpaceRev (String.rev s)).

Definition TrimSpace (s : string) : string :=
  TrimRightSpace (TrimLeftSpace s).

End strings.

(** ** Package [time] *)

Module time.

(** A [Duration] is a signed 64-bit count of nanoseconds. *)
Definition wrap64 (z : Z) : Z := (z + 2 ^ 63) `mod` 2 ^ 64 - 2 ^ 63.

Definition Second : Z := 1000000000.

(** [a * b] on [Duration]s. *)
Definition mul (a b : Z) : Z := wrap64 (a * b).

(** [Duration(n)] for an [int]. *)
Definition Duration (n : Z) : Z := n.

(** An instant, as nanoseconds since the Unix epoch. *)
Definition Time := Z.

Definition Add (t : Time) (d : Z) : Time := t + d.

(** [t.Unix()]: whole seconds since the epoch. *)
Definition Unix (t : Time) : Z := t `div` Second.

(** [time.Unix(sec, nsec)]. *)
Definition FromUnix (sec nsec : Z) : Time := sec * Second + nsec.

End time.

(** ** Errors

    Go's [error] values that the packages below produce: the variables of
    package [kv], the [errors.New] of [MExpire], go-redis's [redis.Nil] and
    any other error a backend's client reports. *)

Inductive error :=
  | ErrNoKeys
  | ErrEmptyKey
  | ErrEmptyItem
  | ErrNoConfig
  | errors_New (msg : string)
  | redis_Nil
  | client_error (msg : string).

#[global] Instance error_eq_dec : EqDecision error.
Proof. solve_decision. Defined.

(** ** Package [kv]: items *)

Module kv.

Record Item := mkItem { Key : string; Value : string; TTL : Z }.

#[global] Instance Item_eq_dec : EqDecision Item.
Proof. solve_decision. Defined.

(** [kv.EmptyItem], the zero value of [Item]. *)
Definition EmptyItem : Item := mkItem "" "" 0.

End kv.

(** ** Key validation

    The loop under "should not be empty keys", written out in [MGet], [TTL]
    and [Delete] of both backends: the error of the first blank key. *)

Fixpoint check_keys (keys : list string) : option error :=
  match keys with
  | [] => None
  | key :: rest =>
      let keyTrimmed := strings.TrimSpace key in
      if decide (keyTrimmed = "") then Some ErrEmptyKey
      else check_keys rest
  end.

(** ** Package [memory]: the in-memory storage *)

Module memory.

(** [Storage.heap], a [sync.Map] from keys to items. *)
Abbreviation heap := (gmap string kv.Item).

(** The body of [for _, key := range keys] in [Has]. *)
Fixpoint Has_loop (s : heap) (keys : list string) (m : gmap string bool)
  : option (gmap string bool) * option error :=
  match keys with
  | [] => (Some m, None)
  | key :: rest =>
      let keyTrimmed := strings.TrimSpace key in
      if decide (keyTrimmed = "") then (None, Some ErrEmptyKey)
      else match s !! key with
           | Some _ => Has_loop s rest (<[key := true]> m)
           | None => Has_loop s rest (<[key := false]> m)
           end
  end.

Definition Has (s : heap) (keys : slice string)
  : option (gmap string bool) * option error :=
  match keys with
  | None => (None, Some ErrNoKeys)
  | Some ks => Has_loop s ks ∅
  end.

Definition Get (s : heap) (key : string) : option string * option error :=
  let keyTrimmed := strings.TrimSpace key in
  if decide (keyTrimmed = "") then (None, Some ErrEmptyKey)
  else match s !! key with
       | Some data => (Some (kv.Value data), None)
       | None => (None, None)
       end.

(** The second loop of [MGet]: [m = append(m, value)] for each loaded key. *)
Fixpoint MGet_loop (s : heap) (keys : list string) (m : list kv.Item)
  : list kv.Item :=
  match keys with
  | [] => m
  | key :: rest =>
      match s !! key with
      | Some value => MGet_loop s rest (m ++ [value])
      | None => MGet_loop s rest m
      end
  end.

Definition MGet (s : heap) (keys : slice string)
  : option (list kv.Item) * option error :=
  match keys with
  | None => (None, Some ErrNoKeys)
  | Some ks =>
      match check_keys ks with
      | Some e => (None, Some e)
      | None => (Some (MGet_loop s ks []), None)
      end
  end.

(** The expiry [Set] and [MExpire] compute from a clock reading [now]:
    [time.Unix(now.Add(time.Second*time.Duration(ttl)).Unix(), 0).Unix()]. *)
Definition expiry (now : time.Time) (ttl : Z) : Z :=
  time.Unix
    (time.FromUnix
       (time.Unix (time.Add now (time.mul time.Second (time.Duration ttl))))
       0).

(** The loop of [Set]; [clock i] is what [time.Now()] reads in iteration
    [i]. *)
Fixpoint Set_loop (clock : nat → time.Time) (i : nat) (s : heap)
    (items : list kv.Item) : heap :=
  match items with
  | [] => s
  | kvItem :: rest =>
      if decide (kv.TTL kvItem > 0) then
        Set_loop clock (S i)
          (<[kv.Key kvItem :=
               kv.mkItem (kv.Key kvItem) (kv.Value kvItem)
                 (expiry (clock i) (kv.TTL kvItem))]> s)
          rest
      else
        Set_loop clock (S i)
          (<[kv.Key kvItem :=
               kv.mkItem (kv.Key kvItem) (kv.Value kvItem) 0]> s)
          rest
  end.

Definition Set_ (clock : nat → time.Time) (s : heap) (items : slice kv.Item)
  : heap * option error :=
  match items with
  | None => (s, Some ErrNoKeys)
  | Some its => (Set_loop clock 0 s its, None)
  end.

(** The loop of [MExpire]: a loaded item is stored back with [TTL = ut]. *)
Fixpoint MExpire_loop (ut : Z) (s : heap) (keys : list string) : heap :=
  match keys with
  | [] => s
  | key :: rest =>
      match s !! key with
      | Some item =>
          let kvItem := kv.mkItem (kv.Key item) (kv.Value item) ut in
          MExpire_loop ut (<[key := kvItem]> s) rest
      | None => MExpire_loop ut s rest
      end
  end.

Definition MExpire (now : time.Time) (s : heap) (timeout : Z)
    (keys : slice string) : heap * option error :=
  if decide (timeout = 0 ∨ keys = None) then
    (s, Some (errors_New "should set timeout and at least one key"))
  else
    let ut := expiry now timeout in
    (MExpire_loop ut s (elems keys), None).

(** The second loop of [TTL]: [m[key] = item.TTL] for each loaded key. *)
Fixpoint TTL_loop (s : heap) (keys : list string) (m : gmap string Z)
  : gmap string Z :=
  match keys with
  | [] => m
  | key :: rest =>
      match s !! key with
      | Some item => TTL_loop s rest (<[key := kv.TTL item]> m)
      | None => TTL_loop s rest m
      end
  end.

Definition TTL (s : heap) (keys : slice string)
  : option (gmap string Z) * option error :=
  match keys with
  | None => (None, Some ErrNoKeys)
  | Some ks =>
      match check_keys ks with
      | Some e => (None, Some e)
      | None => (Some (TTL_loop s ks ∅), None)
      end
  end.

Fixpoint Delete_loop (s : heap) (keys : list string) : heap :=
  match keys with
  | [] => s
  | key :: rest => Delete_loop (delete key s) rest
  end.

Definition Delete (s : heap) (keys : slice string) : heap * option error :=
  match keys with
  | None => (s, Some ErrNoKeys)
  | Some ks =>
      match check_keys ks with
      | Some e => (s, Some e)
      | None => (Delete_loop s ks, None)
      end
  end.

(** The callback [gcPhase] hands to [heap.Range] on a tick read at [now]. *)
Definition gc_visit (now : time.Time) (key : string) (v : kv.Item) (s : heap)
  : heap :=
  if decide (time.Unix now > time.Unix (time.FromUnix (kv.TTL v) 0))
  then delete key s else s.

(** One sweep: [Range] visits every entry of the map. *)
Definition gc_sweep (now : time.Time) (s : heap) : heap :=
  map_fold (gc_visit now) s s.

(** What the [select] of [gcPhase] receives. *)
Inductive signal :=
  | Stop
  | Tick (now : time.Time).

(** [gcPhase] over the signals it receives, in order; it returns on [Stop]. *)
Fixpoint gcPhase (sigs : list signal) (s : heap) : heap :=
  match sigs with
  | [] => s
  | Stop :: _ => s
  | Tick now :: rest => gcPhase rest (gc_sweep now s)
  end.

End memory.

(** ** The go-redis client

    The adapter of package [redis] holds a [redis.UniversalClient]; the
    class lists the commands the adapter issues, each with the reply the
    adapter reads from it ([Result], [Bytes] or [Err]). *)

Module goredis.

Class UniversalClient (C : Type) := {
  (* [Exists(key).Result()] *)
  Exists : C → string → Z * option error;
  (* [Get(key).Bytes()] *)
  Get : C → string → option string * option error;
  (* [MGet(keys...).Result()]; a reply slot is [None] for Go's nil *)
  MGet : C → list string → option (list (option string)) * option error;
  (* [Set(key, value, expiration).Err()] *)
  Set_ : C → string → string → Z → C * option error;
  (* [Del(keys...).Err()] *)
  Del : C → list string → C * option error;
  (* [Expire(key, expiration)], whose reply the adapter drops *)
  Expire : C → string → Z → C;
  (* [TTL(key).Result()] *)
  TTL : C → string → Z * option error;
}.

(** A server with no clock, after the documentation of go-redis v7 and of
    the Redis commands: a key holds a value and, when it expires, the time
    it has left. [GET] of a missing key replies [redis.Nil]; [MGET] has one
    slot per key; [TTL] replies [-2] for a missing key and [-1] for a key
    that does not expire. *)
Abbreviation server := (gmap string (string * option Z)).

Definition server_Exists (c : server) (key : string) : Z * option error :=
  (match c !! key with Some _ => 1 | None => 0 end, None).

Definition server_Get (c : server) (key : string)
  : option string * option error :=
  match c !! key with
  | Some (v, _) => (Some v, None)
  | None => (None, Some redis_Nil)
  end.

Definition server_MGet (c : server) (keys : list string)
  : option (list (option string)) * option error :=
  (Some ((λ key, fst <$> c !! key) <$> keys), None).

Definition server_Set (c : server) (key value : string) (expiration : Z)
  : server * option error :=
  (<[key := (value, if decide (expiration > 0) then Some expiration else None)]> c,
   None).

Definition server_Del (c : server) (keys : list string)
  : server * option error :=
  (foldl (λ acc key, delete key acc) c keys, None).

Definition server_Expire (c : server) (key : string) (expiration : Z)
  : server :=
  match c !! key with
  | Some (v, _) =>
      if decide (expiration > 0) then <[key := (v, Some expiration)]> c
      else delete key c
  | None => c
  end.

Definition server_TTL (c : server) (key : string) : Z * option error :=
  match c !! key with
  | Some (_, Some remaining) => (remaining, None)
  | Some (_, None) => (-1, None)
  | None => (-2, None)
  end.

#[global] Instance server_client : UniversalClient server := {
  Exists := server_Exists;
  Get := server_Get;
  MGet := server_MGet;
  Set_ := server_Set;
  Del := server_Del;
  Expire := server_Expire;
  TTL := server_TTL;
}.

End goredis.

(** ** Package [redis]: the adapter *)

Module redis.

(** [d.Seconds()] of a [time.Duration], a [float64] kept symbolic. *)
Inductive float64 :=
  | Seconds (d : Z).

Section adapter.
Context {C : Type} `{!goredis.UniversalClient C}.

Fixpoint Has_loop (c : C) (keys : list string) (m : gmap string bool)
  : option (gmap string bool) * option error :=
  match keys with
  | [] => (Some m, None)
  | key :: rest =>
      let keyTrimmed := strings.TrimSpace key in
      if decide (keyTrimmed = "") then (None, Some ErrEmptyKey)
      else
        match goredis.Exists c key with
        | (_, Some err) => (None, Some err)
        | (exists_, None) =>
            if decide (exists_ = 0) then Has_loop c rest (<[key := false]> m)
            else if decide (exists_ = 1) then Has_loop c rest (<[key := true]> m)
            else Has_loop c rest m
        end
  end.

Definition Has (c : C) (keys : slice string)
  : option (gmap string bool) * option error :=
  match keys with
  | None => (None, Some ErrNoKeys)
  | Some ks => Has_loop c ks ∅
  end.

Definition Get (c : C) (key : string) : option string * option error :=
  let keyTrimmed := strings.TrimSpace key in
  if decide (keyTrimmed = "") then (None, Some ErrEmptyKey)
  else goredis.Get c key.

Definition MGet (c : C) (keys : slice string)
  : option (list (option string)) * option error :=
  match keys with
  | None => (None, Some ErrNoKeys)
  | Some ks =>
      match check_keys ks with
      | Some e => (None, Some e)
      | None =>
          match goredis.MGet c ks with
          | (_, Some err) => (None, Some err)
          | (res, None) => (res, None)
          end
      end
  end.

Fixpoint Set_loop (c : C) (items : list kv.Item) : C * option error :=
  match items with
  | [] => (c, None)
  | item :: rest =>
      if decide (item = kv.EmptyItem) then (c, Some ErrEmptyItem)
      else
        match goredis.Set_ c (kv.Key item) (kv.Value item)
                (time.mul time.Second (time.Duration (kv.TTL item))) with
        | (c', Some err) => (c', Some err)
        | (c', None) => Set_loop c' rest
        end
  end.

Definition Set_ (c : C) (items : slice kv.Item) : C * option error :=
  match items with
  | None => (c, Some ErrNoKeys)
  | Some its => Set_loop c its
  end.

Definition Delete (c : C) (keys : slice string) : C * option error :=
  match keys with
  | None => (c, Some ErrNoKeys)
  | Some ks =>
      match check_keys ks with
      | Some e => (c, Some e)
      | None => goredis.Del c ks
      end
  end.

Definition MExpire (c : C) (timeout : Z) (keys : slice string)
  : C * option error :=
  if decide (timeout = 0 ∨ keys = None) then
    (c, Some (errors_New "should set timeout and at least one key"))
  else
    let t := time.mul (time.Duration timeout) time.Second in
    (foldl (λ acc key, goredis.Expire acc key t) c (elems keys), None).

Fixpoint TTL_loop (c : C) (keys : list string) (m : gmap string float64)
  : option (gmap string float64) * option error :=
  match keys with
  | [] => (Some m, None)
  | key :: rest =>
      match goredis.TTL c key with
      | (_, Some err) => (None, Some err)
      | (duration, None) => TTL_loop c rest (<[key := Seconds duration]> m)
      end
  end.

Definition TTL (c : C) (keys : slice string)
  : option (gmap string float64) * option error :=
  match keys with
  | None => (None, Some ErrNoKeys)
  | Some ks =>
      match check_keys ks with
      | Some e => (None, Some e)
      | None => TTL_loop c ks ∅
      end
  end.

End adapter.

End redis.

(** ** Package [kv]: the RPC server of [rpc.go] *)

Module rpc.

(** [Item] as [rpc.go] builds it: the expiry travels as a string. *)
Record Item := mkItem { Key : string; Value : string; TTL : string }.

#[global] Instance Item_eq_dec : EqDecision Item.
Proof. solve_decision. Defined.

(** The tables of package [data] a request decodes to. *)
Record data_Item := mkDataItem {
  Item_Key : string; Item_Value : string; Item_Timeout : string }.

Record Data := mkData {
  Data_Storage : string; Data_Keys : list string; Data_Timeout : string }.

Record SetData := mkSetData {
  SetData_Items : list data_Item; SetData_Storages : list string }.

Definition KeysLength (d : Data) : nat := length (Data_Keys d).
Definition Keys_at (d : Data) (i : nat) : string := default "" (Data_Keys d !! i).
Definition ItemsLength (d : SetData) : nat := length (SetData_Items d).
(** [dataRoot.Items(it, i)]: [None] when it reports [false]. *)
Definition Items_at (d : SetData) (i : nat) : option data_Item := SetData_Items d !! i.
Definition StoragesLength (d : SetData) : nat := length (SetData_Storages d).
Definition Storages_at (d : SetData) (i : nat) : string :=
  default "" (SetData_Storages d !! i).

(** How a handler ends: it returns, with what it wrote to its result pointer
    ([None] when it wrote nothing) and its error, or the goroutine panics. *)
Inductive panic :=
  | nil_dereference
  | index_out_of_range
  | slice_bounds_out_of_range.

Inductive outcome (R : Type) :=
  | Return (res : option R) (err : option error)
  | Panic (p : panic).
Arguments Return {R} res err.
Arguments Panic {R} p.

Definition is_panic {R} (o : outcome R) : bool :=
  match o with Panic _ => true | Return _ _ => false end.

(** The [Storage] interface with the signatures [rpc.go] calls; [any]
    stands for [interface{}]. *)
Class Storage (σ any : Type) := {
  storage_Has : σ → slice string → option (gmap string bool) * option error;
  storage_Get : σ → string → option string * option error;
  storage_MGet : σ → slice string → option (gmap string any) * option error;
  storage_Set : σ → slice Item → σ * option error;
  storage_MExpire : σ → slice Item → σ * option error;
  storage_TTL : σ → slice string → option (gmap string any) * option error;
  storage_Delete : σ → slice string → σ * option error;
  storage_Close : σ → σ * option error;
}.

(** How the goroutines of the [errgroup] of [Set] ran. Its closures share
    the loop variable [i], so a closure reads whatever [i] holds when it
    runs: its own index, a later one, or [StoragesLength], past the vector.
    [sched_read k] is the index read by the closure that runs [k]-th, and
    [sched_beyond j] what [dataRoot.Storages(j)] yields past the vector,
    [None] when the access panics. *)
Record schedule := mkSchedule {
  sched_read : nat → nat;
  sched_beyond : nat → option string }.

(** The schedule in which every closure reads the index of its own
    iteration and the closures run in the order they were started. *)
Definition in_order : schedule := mkSchedule (λ k, k) (λ _, None).

(** [s[i] = x] on a slice of length [length s]. *)
Definition index_store {A} (s : list A) (i : nat) (x : A) : option (list A) :=
  if decide (i < length s)%nat then Some (<[i := x]> s) else None.

(** *** The handlers of [RpcServer] *)

Module RpcServer.

Section server.
Context {σ any : Type} `{!Storage σ any}.

(** [RpcServer.svc.Storages], a Go map from names to storages. *)
Implicit Type svc : gmap string σ.

(** [keys := make([]string, 0, l)], then one [append] per index. *)
Definition decode_keys (dataRoot : Data) : list string :=
  foldl (λ keys i, keys ++ [Keys_at dataRoot i]) [] (seq 0 (KeysLength dataRoot)).

(** A handler that reads from one storage. *)
Definition read_call {R} (svc : gmap string σ) (storage : string)
    (call : σ → R * option error) : outcome R :=
  match svc !! storage with
  | None => Panic nil_dereference
  | Some st =>
      match call st with
      | (_, Some err) => Return None (Some err)
      | (ret, None) => Return (Some ret) None
      end
  end.

(** A handler that writes to one storage and sets [*ok = true]. *)
Definition write_call (svc : gmap string σ) (storage : string)
    (call : σ → σ * option error) : gmap string σ * outcome bool :=
  match svc !! storage with
  | None => (svc, Panic nil_dereference)
  | Some st =>
      match call st with
      | (st', Some err) => (<[storage := st']> svc, Return None (Some err))
      | (st', None) => (<[storage := st']> svc, Return (Some true) None)
      end
  end.

Definition Has svc (in_ : Data) : outcome (option (gmap string bool)) :=
  let keys := decode_keys in_ in
  let storage := Data_Storage in_ in
  read_call svc storage (λ st, storage_Has st (Some keys)).

Definition Get svc (in_ : Data) : outcome (option string) :=
  let keys := decode_keys in_ in
  let storage := Data_Storage in_ in
  match keys !! 0%nat with
  | None => Panic index_out_of_range
  | Some key0 => read_call svc storage (λ st, storage_Get st key0)
  end.

Definition MGet svc (in_ : Data) : outcome (option (gmap string any)) :=
  let keys := decode_keys in_ in
  let storage := Data_Storage in_ in
  read_call svc storage (λ st, storage_MGet st (Some keys)).

Definition TTL svc (in_ : Data) : outcome (option (gmap string any)) :=
  let keys := decode_keys in_ in
  let storage := Data_Storage in_ in
  read_call svc storage (λ st, storage_TTL st (Some keys)).

Definition MExpire svc (in_ : Data) : gmap string σ * outcome bool :=
  let it :=
    foldl (λ it i, it ++ [mkItem (Keys_at in_ i) "" (Data_Timeout in_)]) []
      (seq 0 (KeysLength in_)) in
  write_call svc (Data_Storage in_) (λ st, storage_MExpire st (Some it)).

Definition Delete svc (in_ : Data) : gmap string σ * outcome bool :=
  let keys := decode_keys in_ in
  let storage := Data_Storage in_ in
  write_call svc storage (λ st, storage_Delete st (Some keys)).

Definition Close svc (storage : string) : gmap string σ * outcome bool :=
  write_call svc storage storage_Close.

(** The first loop of [Set]: [items] starts as [make([]Item, 0, n)], of
    length 0, and is written by index. *)
Fixpoint Set_items (dataRoot : SetData) (idx : list nat) (items : list Item)
  : option (list Item) :=
  match idx with
  | [] => Some items
  | i :: rest =>
      match Items_at dataRoot i with
      | None => Set_items dataRoot rest items
      | Some it =>
          let itc := mkItem (Item_Key it) (Item_Value it) (Item_Timeout it) in
          match index_store items i itc with
          | None => None
          | Some items' => Set_items dataRoot rest items'
          end
      end
  end.

(** [string(dataRoot.Storages(i))] as the closure that runs [k]-th
    evaluates it. *)
Definition closure_storage (dataRoot : SetData) (sch : schedule) (k : nat)
  : option string :=
  let i := sched_read sch k in
  if decide (i < StoragesLength dataRoot)%nat then Some (Storages_at dataRoot i)
  else sched_beyond sch i.

(** The [errgroup] of [Set] under a schedule: one closure per storage
    index is started, whatever the others return; their calls on the
    storages are taken one at a time, in the order the closures run, and
    [first] is the error [Wait] will return. A panic of a closure ends the
    process. *)
Fixpoint Set_fanout (dataRoot : SetData) (sch : schedule) (items : list Item)
    (closures : list nat) svc (first : option error)
  : gmap string σ * outcome bool :=
  match closures with
  | [] => (svc, Return None first)
  | k :: rest =>
      match closure_storage dataRoot sch k with
      | None => (svc, Panic slice_bounds_out_of_range)
      | Some name =>
          match svc !! name with
          | None => (svc, Panic nil_dereference)
          | Some st =>
              let '(st', err) := storage_Set st (Some items) in
              Set_fanout dataRoot sch items rest (<[name := st']> svc)
                (match first with Some e => Some e | None => err end)
          end
      end
  end.

Definition Set_ (sch : schedule) svc (in_ : SetData)
  : gmap string σ * outcome bool :=
  match Set_items in_ (seq 0 (ItemsLength in_)) [] with
  | None => (svc, Panic index_out_of_range)
  | Some items =>
      Set_fanout in_ sch items (seq 0 (StoragesLength in_)) svc None
  end.

End server.

End RpcServer.

(** A stand-in backend to run the server on: a table of items that never
    reports an error. *)
Abbreviation table := (gmap string Item).

#[global] Instance table_storage : Storage table string := {
  storage_Has t keys :=
    (Some (list_to_map ((λ k, (k, bool_decide (is_Some (t !! k)))) <$> elems keys)), None);
  storage_Get t key := (Value <$> t !! key, None);
  storage_MGet t keys :=
    (Some (list_to_map (omap (λ k, (λ it, (k, Value it)) <$> t !! k) (elems keys))), None);
  storage_Set t items := (foldl (λ acc it, <[Key it := it]> acc) t (elems items), None);
  storage_MExpire t items :=
    (foldl (λ acc it, alter (λ old, mkItem (Key old) (Value old) (TTL it)) (Key it) acc)
       t (elems items), None);
  storage_TTL t keys :=
    (Some (list_to_map (omap (λ k, (λ it, (k, TTL it)) <$> t !! k) (elems keys))), None);
  storage_Delete t keys := (foldl (λ acc k, delete k acc) t (elems keys), None);
  storage_Close t := (t, None);
}.

End rpc.

(** ** The vocabulary of the properties *)

(** A key the storages accept: it is not blank. *)
Definition valid_key (key : string) : Prop := strings.TrimSpace key ≠ "".

#[global] Instance valid_key_dec key : Decision (valid_key key).
Proof. unfold valid_key. apply _. Defined.

(** Follows the spec's words: an entry has expired at [now] when it has an
    expiry moment and that moment has passed. *)
Definition spec_expired (now : time.Time) (item : kv.Item) : Prop :=
  kv.TTL item ≠ 0 ∧ time.Unix now > kv.TTL item.

(** Follows the spec's words: the seconds an entry has left at [now]. *)
Definition spec_remaining (now : time.Time) (item : kv.Item) : Z :=
  kv.TTL item - time.Unix now.

(** A heap with one entry, stored at second 100 to live one second, after
    the reaper's tick at second 101. *)
Definition one_second_entry : gmap string kv.Item :=
  memory.gcPhase [memory.Tick (time.FromUnix 101 0)]
    (memory.Set_ (λ _, time.FromUnix 100 0) ∅ (Some [kv.mkItem "k" "v" 1])).1.

(** Every entry of the heap sits under the key its item carries. *)
Definition keyed (s : gmap string kv.Item) : Prop :=
  map_Forall (λ key item, kv.Key item = key) s.

(** The clock readings [gcPhase] sweeps at: those it receives before the
    first [Stop]. *)
Fixpoint ticks_before_stop (sigs : list memory.signal) : list time.Time :=
  match sigs with
  | [] => []
  | memory.Stop :: _ => []
  | memory.Tick now :: rest => now :: ticks_before_stop rest
  end.


(** * Properties *)

(** ** Key validation *)

Lemma check_keys_None ks : check_keys ks = None ↔ Forall valid_key ks.
Proof.
  induction ks as [|key ks IH]; simpl.
  - split; [constructor | done].
  - case_decide as Hk.
    + split; [done | intros [Hv _]%Forall_cons_1; by destruct Hv].
    + rewrite IH. split; [by constructor | by intros [_ ?]%Forall_cons_1].
Qed.

Lemma check_keys_blank ks key :
  key ∈ ks → ¬ valid_key key → check_keys ks = Some ErrEmptyKey.
Proof.
  induction ks as [|k ks IH]; [by intros ?%elem_of_nil |].
  intros [-> | Hin]%elem_of_cons Hbad; simpl; case_decide; try done.
  by apply IH.
Qed.

(** ** Time *)

Lemma Unix_FromUnix sec : time.Unix (time.FromUnix sec 0) = sec.
Proof.
  unfold time.Unix, time.FromUnix, time.Second.
  rewrite Z.add_0_r. by apply Z.div_mul.
Qed.

Lemma wrap64_small z : - 2 ^ 63 ≤ z < 2 ^ 63 → time.wrap64 z = z.
Proof.
  intros Hz. unfold time.wrap64.
  rewrite Z.mod_small; lia.
Qed.

(** Away from overflow the expiry is the clock's second plus the TTL. *)
Lemma expiry_in_range now ttl :
  - 2 ^ 63 ≤ time.Second * ttl < 2 ^ 63 →
  memory.expiry now ttl = time.Unix now + ttl.
Proof.
  intros Hr. unfold memory.expiry, time.mul, time.Duration, time.Add.
  rewrite Unix_FromUnix, wrap64_small by done.
  unfold time.Unix. rewrite (Z.mul_comm time.Second ttl).
  by apply Z.div_add.
Qed.

(** ** The in-memory storage *)

(** Whether [k] is in [key :: ks]: in the tail, at the head, or in neither;
    the goal's test on the membership is settled in each case. *)
Ltac elem_cons_cases k key ks :=
  destruct (decide (k ∈ ks));
  [ rewrite (decide_True (P := k ∈ key :: ks)) by (by right)
  | destruct (decide (k = key)) as [-> | ?];
    [ rewrite (decide_True (P := key ∈ key :: ks)) by left
    | rewrite (decide_False (P := k ∈ key :: ks))
        by (by intros [?|?]%elem_of_cons) ] ].

Section memory_facts.
Implicit Types (s : gmap string kv.Item) (ks : list string) (k : string).

Lemma Set_loop_frame clock i s (items : list kv.Item) k :
  k ∉ kv.Key <$> items → memory.Set_loop clock i s items !! k = s !! k.
Proof.
  revert i s. induction items as [|it items IH]; intros i s Hk; [done |].
  rewrite fmap_cons in Hk. apply not_elem_of_cons in Hk as [Hne Hk].
  simpl. case_decide; rewrite IH by done; by rewrite lookup_insert_ne.
Qed.

Lemma MExpire_loop_frame ut s ks k :
  k ∉ ks → memory.MExpire_loop ut s ks !! k = s !! k.
Proof.
  revert s. induction ks as [|key ks IH]; intros s Hk; [done |].
  apply not_elem_of_cons in Hk as [Hne Hk]. simpl.
  destruct (s !! key); rewrite IH by done; [by rewrite lookup_insert_ne | done].
Qed.

Lemma Delete_loop_lookup s ks k :
  memory.Delete_loop s ks !! k = if decide (k ∈ ks) then None else s !! k.
Proof.
  revert s. induction ks as [|key ks IH]; intros s.
  - case_decide as Hin; [by apply elem_of_nil in Hin | done].
  - cbn [memory.Delete_loop]. rewrite IH. elem_cons_cases k key ks.
    + done.
    + apply lookup_delete_eq.
    + by apply lookup_delete_ne.
Qed.

(** An expiring entry is kept by [MExpire] with its value, under the new
    expiry. *)
Lemma MExpire_loop_lookup ut s ks k :
  k ∈ ks →
  memory.MExpire_loop ut s ks !! k
  = (λ item, kv.mkItem (kv.Key item) (kv.Value item) ut) <$> s !! k.
Proof.
  revert s. induction ks as [|key ks IH]; intros s Hk; [by apply elem_of_nil in Hk |].
  simpl. destruct (decide (k ∈ ks)) as [Hin | Hout].
  - destruct (s !! key) as [item|] eqn:Hkey; rewrite IH by done; [| done].
    destruct (decide (key = k)) as [-> | Hne].
    + by rewrite lookup_insert_eq, Hkey.
    + by rewrite lookup_insert_ne.
  - apply elem_of_cons in Hk as [-> | ?]; [| done].
    destruct (s !! key) as [item|] eqn:Hkey; rewrite MExpire_loop_frame by done.
    + by rewrite lookup_insert_eq.
    + by rewrite Hkey.
Qed.

Lemma Has_loop_step s key ks (m : gmap string bool) :
  valid_key key →
  memory.Has_loop s (key :: ks) m
  = memory.Has_loop s ks (<[key := bool_decide (is_Some (s !! key))]> m).
Proof.
  intros Hkey. cbn [memory.Has_loop]. rewrite decide_False by done.
  destruct (s !! key) eqn:E.
  - by rewrite bool_decide_true by eauto.
  - by rewrite bool_decide_false by (by intros [? ?]).
Qed.

Lemma Has_loop_spec s ks (m : gmap string bool) :
  Forall valid_key ks →
  ∃ m', memory.Has_loop s ks m = (Some m', None)
        ∧ ∀ k, m' !! k = if decide (k ∈ ks)
                         then Some (bool_decide (is_Some (s !! k)))
                         else m !! k.
Proof.
  intros Hv. revert m. induction Hv as [|key ks Hkey _ IH]; intros m.
  - exists m. split; [done |]. intros k.
    case_decide as Hin; [by apply elem_of_nil in Hin | done].
  - rewrite Has_loop_step by done.
    destruct (IH (<[key := bool_decide (is_Some (s !! key))]> m)) as (m' & -> & Hm').
    exists m'. split; [done |].
    intros k. rewrite Hm'. elem_cons_cases k key ks.
    + done.
    + by rewrite lookup_insert_eq.
    + by rewrite lookup_insert_ne.
Qed.

Lemma Has_loop_blank s ks (m : gmap string bool) :
  ¬ Forall valid_key ks → memory.Has_loop s ks m = (None, Some ErrEmptyKey).
Proof.
  revert m. induction ks as [|key ks IH]; intros m Hbad.
  - destruct Hbad. constructor.
  - simpl. case_decide as Hk; [done |].
    assert (¬ Forall valid_key ks) by (intros ?; apply Hbad; by constructor).
    destruct (s !! key); by apply IH.
Qed.

Lemma TTL_loop_lookup s ks (m : gmap string Z) k :
  memory.TTL_loop s ks m !! k
  = if decide (k ∈ ks) then
      match s !! k with Some item => Some (kv.TTL item) | None => m !! k end
    else m !! k.
Proof.
  revert m. induction ks as [|key ks IH]; intros m.
  - case_decide as Hin; [by apply elem_of_nil in Hin | done].
  - cbn [memory.TTL_loop].
    destruct (s !! key) as [item|] eqn:Hkey; rewrite IH.
    + elem_cons_cases k key ks.
      * destruct (s !! k) eqn:Hk; [done |].
        destruct (decide (key = k)) as [-> | Hne]; [congruence |].
        by rewrite lookup_insert_ne.
      * by rewrite lookup_insert_eq, Hkey.
      * by rewrite lookup_insert_ne.
    + elem_cons_cases k key ks; [done | by rewrite Hkey | done].
Qed.

Lemma MGet_loop_omap s ks (m : list kv.Item) :
  memory.MGet_loop s ks m = m ++ omap (λ key, s !! key) ks.
Proof.
  revert m. induction ks as [|key ks IH]; intros m; simpl.
  - by rewrite app_nil_r.
  - destruct (s !! key); rewrite IH; [by rewrite <- app_assoc | done].
Qed.

Lemma length_omap_lookup s ks :
  length (omap (λ key, s !! key) ks)
  = length (filter (λ key, is_Some (s !! key)) ks).
Proof.
  induction ks as [|key ks IH]; [done |]. csimpl.
  destruct (s !! key) eqn:E.
  - rewrite filter_cons_True by (rewrite E; eauto). cbn [length]. by rewrite IH.
  - by rewrite filter_cons_False by (rewrite E; by intros [? ?]).
Qed.

(** What a sweep leaves of each entry. *)
Lemma gc_sweep_lookup now s k :
  memory.gc_sweep now s !! k
  = match s !! k with
    | Some v => if decide (time.Unix now > kv.TTL v) then None else Some v
    | None => None
    end.
Proof.
  unfold memory.gc_sweep.
  enough (∀ s0, map_fold (memory.gc_visit now) s0 s !! k
          = match s !! k with
            | Some v => if decide (time.Unix now > kv.TTL v) then None else s0 !! k
            | None => s0 !! k
            end) as Hgen.
  { rewrite Hgen. destruct (s !! k) as [v|] eqn:E; [by case_decide | done]. }
  intros s0.
  apply (map_fold_weak_ind
           (λ r m, r !! k = match m !! k with
                            | Some v => if decide (time.Unix now > kv.TTL v)
                                        then None else s0 !! k
                            | None => s0 !! k
                            end)).
  - by rewrite lookup_empty.
  - intros i x m r Hi IH. unfold memory.gc_visit. rewrite Unix_FromUnix.
    destruct (decide (i = k)) as [-> | Hne].
    + rewrite lookup_insert_eq. rewrite Hi in IH.
      case_decide; [apply lookup_delete_eq | done].
    + rewrite lookup_insert_ne by done.
      case_decide; [by rewrite lookup_delete_ne | done].
Qed.

(** The sweep evicts every entry stored with [TTL = 0] once the clock is
    past the epoch. *)
Lemma gc_sweep_zero_TTL now s k v :
  time.Unix now > 0 → s !! k = Some v → kv.TTL v = 0 →
  memory.gc_sweep now s !! k = None.
Proof.
  intros Hnow Hk Hv. rewrite gc_sweep_lookup, Hk, Hv. by rewrite decide_True.
Qed.

End memory_facts.

(** ** Reading the storages: the claims about [Has], [TTL] and [MGet] *)

(** C4, as stated, fails: at second 102 the entry that expired at second
    101 is still in the map, no sweep having run since, and [Has] reports
    it present. *)
Lemma Has_true_for_expired_entry :
  ∃ item,
    one_second_entry !! "k" = Some item
    ∧ spec_expired (time.FromUnix 102 0) item
    ∧ memory.Has one_second_entry (Some ["k"]) = (Some {[ "k" := true ]}, None).
Proof.
  exists (kv.mkItem "k" "v" 101). split; [by vm_compute |].
  split; [| by vm_compute].
  split; [done | by vm_compute].
Qed.

(** C4, amended: given keys that are all valid, [Has] of the in-memory
    storage returns a map that binds exactly the given keys, each to
    whether the map of entries holds the key; a key never set has no entry
    and is bound to false, and an entry past its expiry that the reaper has
    not evicted yet still counts. *)
Theorem Has_true_iff_present (s : gmap string kv.Item) (ks : list string) :
  Forall valid_key ks →
  ∃ m, memory.Has s (Some ks) = (Some m, None)
       ∧ ∀ k, m !! k = if decide (k ∈ ks)
                       then Some (bool_decide (is_Some (s !! k)))
                       else None.
Proof.
  intros Hv. destruct (Has_loop_spec s ks ∅ Hv) as (m & Hm & Hlook).
  exists m. split; [done |]. intros k. rewrite Hlook.
  case_decide; [done | apply lookup_empty].
Qed.

Lemma Has_true_iff_present_witness :
  ∃ m, memory.Has one_second_entry (Some ["k"; "never set"]) = (Some m, None)
       ∧ ∀ k, m !! k = if decide (k ∈ ["k"; "never set"])
                       then Some (bool_decide (is_Some (one_second_entry !! k)))
                       else None.
Proof.
  apply (Has_true_iff_present one_second_entry ["k"; "never set"]).
  repeat constructor; by vm_compute.
Defined.

(** C5: the code does otherwise on the in-memory storage, whose [TTL]
    returns the stored [TTL] field, the Unix second the entry expires at,
    and not the time that is left: for an entry stored at second 100 to
    live five seconds it answers 105 whenever it is asked, where three
    seconds are left at second 102. *)
Theorem TTL_is_not_remaining_seconds :
  let s := (memory.Set_ (λ _, time.FromUnix 100 0) ∅
              (Some [kv.mkItem "k" "v" 5])).1 in
  ∃ item m,
    s !! "k" = Some item
    ∧ memory.TTL s (Some ["k"]) = (Some m, None)
    ∧ m !! "k" = Some 105
    ∧ spec_remaining (time.FromUnix 102 0) item = 3.
Proof.
  exists (kv.mkItem "k" "v" 105), {[ "k" := 105 ]}. by vm_compute.
Qed.

(** C7, as stated, fails: at second 102 [MGet] of the in-memory storage
    returns the entry that expired at second 101, no sweep having evicted
    it. *)
Lemma MGet_returns_expired_entry :
  ∃ item,
    memory.MGet one_second_entry (Some ["k"]) = (Some [item], None)
    ∧ spec_expired (time.FromUnix 102 0) item.
Proof.
  exists (kv.mkItem "k" "v" 101). split; [by vm_compute |].
  split; [done | by vm_compute].
Qed.

(** C7, amended: given keys that are all valid, [MGet] of the in-memory
    storage returns, in the order asked, one result for each given key
    that has an entry in the map, whether or not the entry's expiry has
    passed, carrying that entry's value, and nothing for the other keys, so
    the result is as long as the number of given keys that have an entry
    and no longer than the list of keys. *)
Theorem MGet_returns_present_items (s : gmap string kv.Item) (ks : list string) :
  Forall valid_key ks →
  ∃ res, memory.MGet s (Some ks) = (Some res, None)
         ∧ kv.Value <$> res = omap (λ key, kv.Value <$> s !! key) ks
         ∧ length res = length (filter (λ key, is_Some (s !! key)) ks)
         ∧ (length res ≤ length ks)%nat.
Proof.
  intros Hv. apply check_keys_None in Hv.
  unfold memory.MGet. rewrite Hv, MGet_loop_omap, app_nil_l.
  eexists. split; [done |]. split; [| split].
  - clear Hv. induction ks as [|key ks IH]; [done |]. csimpl.
    destruct (s !! key); csimpl; by rewrite IH.
  - apply length_omap_lookup.
  - rewrite length_omap_lookup. apply length_filter.
Qed.

Lemma MGet_returns_present_items_witness :
  ∃ res, memory.MGet one_second_entry (Some ["k"; "other"; "k"]) = (Some res, None)
         ∧ kv.Value <$> res
           = omap (λ key, kv.Value <$> one_second_entry !! key) ["k"; "other"; "k"]
         ∧ length res
           = length (filter (λ key, is_Some (one_second_entry !! key))
                       ["k"; "other"; "k"])
         ∧ (length res ≤ length ["k"; "other"; "k"])%nat.
Proof.
  apply (MGet_returns_present_items one_second_entry ["k"; "other"; "k"]).
  repeat constructor; by vm_compute.
Defined.

(** ** Writing to the in-memory storage *)

(** C10: whether the call succeeds or fails, [Set], [MExpire] and [Delete]
    of the in-memory storage leave the entry of every key that the call
    does not name as it was: its item, value and expiry, is the same
    before and after. *)
Theorem memory_writes_leave_other_keys (clock : nat → time.Time)
    (now : time.Time) (s : gmap string kv.Item) (items : slice kv.Item)
    (timeout : Z) (keys : slice string) (k : string) :
  k ∉ kv.Key <$> elems items →
  k ∉ elems keys →
  (memory.Set_ clock s items).1 !! k = s !! k
  ∧ (memory.MExpire now s timeout keys).1 !! k = s !! k
  ∧ (memory.Delete s keys).1 !! k = s !! k.
Proof.
  intros Hitems Hkeys. split; [| split].
  - destruct items as [its|]; [| done]. by apply Set_loop_frame.
  - unfold memory.MExpire. case_decide; [done |]. by apply MExpire_loop_frame.
  - destruct keys as [ks|]; [| done]. unfold memory.Delete.
    destruct (check_keys ks); [done |]. cbn [fst].
    rewrite Delete_loop_lookup. by rewrite decide_False.
Qed.

Lemma memory_writes_leave_other_keys_witness :
  let s : gmap string kv.Item :=
    {[ "a" := kv.mkItem "a" "1" 0; "b" := kv.mkItem "b" "2" 105 ]} in
  (memory.Set_ (λ _, time.FromUnix 100 0) s
     (Some [kv.mkItem "b" "3" 7; kv.mkItem "c" "4" 0])).1 !! "a" = s !! "a"
  ∧ (memory.MExpire (time.FromUnix 100 0) s 9 (Some ["b"; " "])).1 !! "a" = s !! "a"
  ∧ (memory.Delete s (Some ["b"; " "])).1 !! "a" = s !! "a".
Proof.
  apply (memory_writes_leave_other_keys (λ _, time.FromUnix 100 0)
           (time.FromUnix 100 0)
           {[ "a" := kv.mkItem "a" "1" 0; "b" := kv.mkItem "b" "2" 105 ]}
           (Some [kv.mkItem "b" "3" 7; kv.mkItem "c" "4" 0]) 9
           (Some ["b"; " "]) "a");
    apply (bool_decide_unpack _); by vm_compute.
Defined.

(** C1: the code does otherwise. An item stored by [Set] with no expiry
    gets [TTL = 0], and the sweep of [gcPhase] evicts every entry whose
    [TTL] is below the clock's second: after the first tick the entry is
    gone, [Get] returns nothing and [Has] reports false, with no [Delete]
    issued. *)
Theorem reaper_evicts_entry_without_expiry :
  let s := (memory.Set_ (λ _, time.FromUnix 1600000000 0) ∅
              (Some [kv.mkItem "k" "v" 0])).1 in
  let s' := memory.gcPhase [memory.Tick (time.FromUnix 1600000001 0)] s in
  memory.Get s "k" = (Some "v", None)
  ∧ memory.Has s (Some ["k"]) = (Some {[ "k" := true ]}, None)
  ∧ s' !! "k" = None
  ∧ memory.Get s' "k" = (None, None)
  ∧ memory.Has s' (Some ["k"]) = (Some {[ "k" := false ]}, None).
Proof. by vm_compute. Qed.

(** C8: the code does otherwise for [MExpire], which never looks at its
    keys: given a blank key it reports no error, and when the map holds an
    entry under that key ([Set] stores any key) it rewrites the entry's
    expiry; the redis adapter likewise sends [Expire] for the blank key. *)
Theorem MExpire_accepts_blank_key :
  let s := (memory.Set_ (λ _, time.FromUnix 100 0) ∅
              (Some [kv.mkItem " " "v" 0])).1 in
  ¬ valid_key " "
  ∧ memory.MExpire (time.FromUnix 100 0) s 10 (Some [" "])
    = ({[ " " := kv.mkItem " " "v" 110 ]}, None)
  ∧ memory.MExpire (time.FromUnix 100 0) ∅ 10 (Some [""]) = (∅, None)
  ∧ redis.MExpire ({[ " " := ("v", None) ]} : goredis.server) 10 (Some [" "])
    = ({[ " " := ("v", Some (10 * time.Second)) ]}, None).
Proof.
  split; [intros Hv; by apply Hv |]. by vm_compute.
Qed.

(** C9: the code does otherwise on the in-memory storage, whose [Set] has
    no check for the empty item: it stores the item under the empty key and
    reports no error, where the redis adapter returns [ErrEmptyItem]. *)
Theorem memory_Set_stores_empty_item :
  memory.Set_ (λ _, time.FromUnix 100 0) ∅ (Some [kv.EmptyItem])
  = ({[ "" := kv.EmptyItem ]}, None)
  ∧ redis.Set_ (∅ : goredis.server) (Some [kv.EmptyItem])
    = (∅, Some ErrEmptyItem).
Proof. by vm_compute. Qed.

(** C6: the code does otherwise on the redis adapter, which returns the
    client's reply to [Get] as it is: for a valid key the server does not
    hold, go-redis replies [redis.Nil], an error; the in-memory storage
    returns nil and no error. *)
Theorem redis_Get_absent_key_is_an_error :
  valid_key "key"
  ∧ redis.Get (∅ : goredis.server) "key" = (None, Some redis_Nil)
  ∧ memory.Get ∅ "key" = (None, None).
Proof. split; [by vm_compute | by vm_compute]. Qed.

(** ** The RPC server *)

Section rpc_facts.
Context {σ any : Type} `{!rpc.Storage σ any}.
Implicit Types (svc : gmap string σ).

Lemma foldl_ext_elem {A B} (f g : A → B → A) (l : list B) (a : A) :
  (∀ acc x, x ∈ l → f acc x = g acc x) → foldl f a l = foldl g a l.
Proof.
  revert a. induction l as [|x l IH]; intros a Hfg; [done |].
  cbn [foldl]. rewrite Hfg by left. apply IH. intros acc y Hy. apply Hfg. by right.
Qed.

(** The decoding loop yields the request's keys, in order. *)
Lemma decode_keys_Keys (in_ : rpc.Data) : rpc.RpcServer.decode_keys in_ = rpc.Data_Keys in_.
Proof.
  unfold rpc.RpcServer.decode_keys, rpc.KeysLength, rpc.Keys_at.
  generalize (rpc.Data_Keys in_) as l. clear in_.
  induction l as [|x l IH] using rev_ind; [done |].
  rewrite length_app, Nat.add_1_r, seq_S, foldl_app. cbn [foldl Nat.add].
  rewrite lookup_app_r, Nat.sub_diag by done. cbn [lookup list_lookup default].
  f_equal. etrans; [| exact IH].
  apply foldl_ext_elem. intros acc i Hi%elem_of_seq.
  by rewrite lookup_app_l by lia.
Qed.

Lemma read_call_unknown {R} svc storage (call : σ → R * option error) :
  svc !! storage = None →
  rpc.RpcServer.read_call svc storage call = rpc.Panic rpc.nil_dereference.
Proof. intros Hs. unfold rpc.RpcServer.read_call. by rewrite Hs. Qed.

Lemma write_call_unknown svc storage (call : σ → σ * option error) :
  svc !! storage = None →
  rpc.RpcServer.write_call svc storage call = (svc, rpc.Panic rpc.nil_dereference).
Proof. intros Hs. unfold rpc.RpcServer.write_call. by rewrite Hs. Qed.

(** C2, amended: a request to [Has], [Get], [MGet], [TTL], [MExpire],
    [Delete] or [Close] that names a storage the registry does not hold
    makes the handler panic on the missing entry: it returns no error to
    the caller, and it calls no operation of any storage, the registry
    being what it was. *)
Theorem unknown_storage_panics svc (in_ : rpc.Data) :
  svc !! rpc.Data_Storage in_ = None →
  rpc.RpcServer.Has svc in_ = rpc.Panic rpc.nil_dereference
  ∧ rpc.is_panic (rpc.RpcServer.Get svc in_) = true
  ∧ rpc.RpcServer.MGet svc in_ = rpc.Panic rpc.nil_dereference
  ∧ rpc.RpcServer.TTL svc in_ = rpc.Panic rpc.nil_dereference
  ∧ rpc.RpcServer.MExpire svc in_ = (svc, rpc.Panic rpc.nil_dereference)
  ∧ rpc.RpcServer.Delete svc in_ = (svc, rpc.Panic rpc.nil_dereference)
  ∧ rpc.RpcServer.Close svc (rpc.Data_Storage in_)
    = (svc, rpc.Panic rpc.nil_dereference).
Proof.
  intros Hs. repeat split;
    try (by apply read_call_unknown); try (by apply write_call_unknown).
  unfold rpc.RpcServer.Get. destruct (_ !! 0%nat); [| done].
  by rewrite read_call_unknown.
Qed.

End rpc_facts.

(** C2, as stated, fails: [Has] for a storage the registry does not hold
    panics, so the caller is returned nothing, a routing error included. *)
Lemma unknown_storage_returns_no_error :
  let svc : gmap string rpc.table := {[ "memory" := ∅ ]} in
  let in_ := rpc.mkData "missing" ["k"] "" in
  rpc.RpcServer.Has svc in_ = rpc.Panic rpc.nil_dereference
  ∧ ∀ res err, rpc.RpcServer.Has svc in_ ≠ rpc.Return res err.
Proof. split; [by vm_compute | intros res err; by vm_compute]. Qed.

Lemma unknown_storage_panics_witness :
  let svc : gmap string rpc.table := {[ "memory" := ∅ ]} in
  let in_ := rpc.mkData "missing" ["k"] "" in
  rpc.RpcServer.Has svc in_ = rpc.Panic rpc.nil_dereference
  ∧ rpc.is_panic (rpc.RpcServer.Get svc in_) = true
  ∧ rpc.RpcServer.MGet svc in_ = rpc.Panic rpc.nil_dereference
  ∧ rpc.RpcServer.TTL svc in_ = rpc.Panic rpc.nil_dereference
  ∧ rpc.RpcServer.MExpire svc in_ = (svc, rpc.Panic rpc.nil_dereference)
  ∧ rpc.RpcServer.Delete svc in_ = (svc, rpc.Panic rpc.nil_dereference)
  ∧ rpc.RpcServer.Close svc (rpc.Data_Storage in_)
    = (svc, rpc.Panic rpc.nil_dereference).
Proof.
  apply (unknown_storage_panics ({[ "memory" := ∅ ]} : gmap string rpc.table)
           (rpc.mkData "missing" ["k"] "")).
  by vm_compute.
Defined.

(** C3: the code does otherwise. [Set] writes its first decoded item at
    index 0 of a slice of length 0 and panics there: with one item for two
    storages no storage receives the batch, no key is set and no error is
    returned, however the goroutines would have been scheduled. *)
Theorem rpc_Set_panics_before_fan_out (sch : rpc.schedule) :
  let svc : gmap string rpc.table := {[ "first" := ∅; "second" := ∅ ]} in
  let in_ := rpc.mkSetData [rpc.mkDataItem "k" "v" ""] ["first"; "second"] in
  rpc.RpcServer.Set_ sch svc in_ = (svc, rpc.Panic rpc.index_out_of_range).
Proof. by vm_compute. Qed.

(** ** Further properties of the in-memory storage *)

(** X1: [MExpire] with a timeout other than 0 replaces the expiry of each
    named key that has an entry and keeps the entry's key and value; a
    named key without an entry gets none. *)
Theorem MExpire_changes_only_expiry (now : time.Time)
    (s : gmap string kv.Item) (timeout : Z) (ks : list string) (k : string) :
  timeout ≠ 0 →
  k ∈ ks →
  memory.MExpire now s timeout (Some ks)
  = (memory.MExpire_loop (memory.expiry now timeout) s ks, None)
  ∧ memory.MExpire_loop (memory.expiry now timeout) s ks !! k
    = (λ item, kv.mkItem (kv.Key item) (kv.Value item)
                 (memory.expiry now timeout)) <$> s !! k.
Proof.
  intros Ht Hk. split; [| by apply MExpire_loop_lookup].
  unfold memory.MExpire. rewrite decide_False; [done |].
  by intros [? | ?].
Qed.

Lemma MExpire_changes_only_expiry_witness :
  let s : gmap string kv.Item := {[ "a" := kv.mkItem "a" "1" 0 ]} in
  let now := time.FromUnix 100 0 in
  memory.MExpire now s 5 (Some ["a"; "b"])
  = (memory.MExpire_loop (memory.expiry now 5) s ["a"; "b"], None)
  ∧ memory.MExpire_loop (memory.expiry now 5) s ["a"; "b"] !! "b"
    = (λ item, kv.mkItem (kv.Key item) (kv.Value item)
                 (memory.expiry now 5)) <$> s !! "b".
Proof.
  apply (MExpire_changes_only_expiry (time.FromUnix 100 0)
           {[ "a" := kv.mkItem "a" "1" 0 ]} 5 ["a"; "b"] "b").
  - lia.
  - apply (bool_decide_unpack _). by vm_compute.
Defined.

(** X2: after a successful [Delete] of keys, [MGet] of the same keys
    returns the empty list. *)
Theorem Delete_then_MGet (s : gmap string kv.Item) (ks : list string) :
  Forall valid_key ks →
  memory.Delete s (Some ks) = (memory.Delete_loop s ks, None)
  ∧ memory.MGet (memory.Delete_loop s ks) (Some ks) = (Some [], None).
Proof.
  intros Hv. pose proof Hv as Hc. apply check_keys_None in Hc.
  unfold memory.Delete, memory.MGet. rewrite Hc. split; [done |].
  rewrite MGet_loop_omap, app_nil_l. do 2 f_equal.
  assert (∀ l, l ⊆ ks → omap (λ key, memory.Delete_loop s ks !! key) l = []) as Hall.
  { induction l as [|x l IH]; intros Hsub; [done |]. csimpl.
    rewrite Delete_loop_lookup, decide_True by (apply Hsub; left).
    apply IH. intros y Hy. apply Hsub. by right. }
  by apply Hall.
Qed.

Lemma Delete_then_MGet_witness :
  memory.Delete one_second_entry (Some ["k"; "other"])
  = (memory.Delete_loop one_second_entry ["k"; "other"], None)
  ∧ memory.MGet (memory.Delete_loop one_second_entry ["k"; "other"])
      (Some ["k"; "other"])
    = (Some [], None).
Proof.
  apply (Delete_then_MGet one_second_entry ["k"; "other"]).
  repeat constructor; by vm_compute.
Defined.

(** X3: [Has], [Get], [MGet], [TTL] and [Delete] of the in-memory storage
    reject a list that holds a blank key with [ErrEmptyKey], and [Delete]
    then leaves the map as it was. *)
Theorem blank_key_rejected (s : gmap string kv.Item) (ks : list string)
    (key : string) :
  key ∈ ks →
  ¬ valid_key key →
  memory.Has s (Some ks) = (None, Some ErrEmptyKey)
  ∧ memory.Get s key = (None, Some ErrEmptyKey)
  ∧ memory.MGet s (Some ks) = (None, Some ErrEmptyKey)
  ∧ memory.TTL s (Some ks) = (None, Some ErrEmptyKey)
  ∧ memory.Delete s (Some ks) = (s, Some ErrEmptyKey).
Proof.
  intros Hin Hbad. pose proof (check_keys_blank ks key Hin Hbad) as Hc.
  unfold memory.Has, memory.Get, memory.MGet, memory.TTL, memory.Delete.
  rewrite Hc. repeat split.
  - apply Has_loop_blank. intros Hall. apply Hbad.
    by eapply Forall_forall in Hall.
  - case_decide; [done |]. by destruct Hbad.
Qed.

Lemma blank_key_rejected_witness :
  memory.Has one_second_entry (Some ["k"; "  "]) = (None, Some ErrEmptyKey)
  ∧ memory.Get one_second_entry "  " = (None, Some ErrEmptyKey)
  ∧ memory.MGet one_second_entry (Some ["k"; "  "]) = (None, Some ErrEmptyKey)
  ∧ memory.TTL one_second_entry (Some ["k"; "  "]) = (None, Some ErrEmptyKey)
  ∧ memory.Delete one_second_entry (Some ["k"; "  "])
    = (one_second_entry, Some ErrEmptyKey).
Proof.
  apply (blank_key_rejected one_second_entry ["k"; "  "] "  ").
  - apply (bool_decide_unpack _). by vm_compute.
  - intros Hv. apply Hv. by vm_compute.
Defined.

(** X4: an entry stored by [Set] with a positive TTL, away from overflow,
    survives every sweep up to the second it expires at and is evicted by
    the first sweep after it. *)
Theorem expiring_entry_lifetime (now tick : time.Time) (key value : string)
    (ttl : Z) :
  0 < ttl →
  time.Second * ttl < 2 ^ 63 →
  let s := (memory.Set_ (λ _, now) ∅ (Some [kv.mkItem key value ttl])).1 in
  memory.gcPhase [memory.Tick tick] s !! key
  = if decide (time.Unix tick > time.Unix now + ttl) then None
    else Some (kv.mkItem key value (time.Unix now + ttl)).
Proof.
  intros Hpos Hsmall s. subst s. cbn [memory.gcPhase memory.Set_ fst memory.Set_loop].
  cbn [kv.TTL kv.Key kv.Value]. rewrite decide_True by lia.
  rewrite gc_sweep_lookup, lookup_insert_eq. cbn [kv.TTL].
  rewrite expiry_in_range; [done |].
  unfold time.Second in *. lia.
Qed.

Lemma expiring_entry_lifetime_witness :
  let s := (memory.Set_ (λ _, time.FromUnix 100 0) ∅
              (Some [kv.mkItem "k" "v" 5])).1 in
  memory.gcPhase [memory.Tick (time.FromUnix 106 0)] s !! "k"
  = if decide (time.Unix (time.FromUnix 106 0)
               > time.Unix (time.FromUnix 100 0) + 5)
    then None
    else Some (kv.mkItem "k" "v" (time.Unix (time.FromUnix 100 0) + 5)).
Proof.
  apply (expiring_entry_lifetime (time.FromUnix 100 0) (time.FromUnix 106 0)
           "k" "v" 5); [lia | by vm_compute].
Defined.

(** ** Further properties of the adapter and of the RPC server *)

Lemma redis_TTL_loop_spec {C} `{!goredis.UniversalClient C} (c : C)
    (ks : list string) (m : gmap string redis.float64) :
  (∀ k, k ∈ ks → (goredis.TTL c k).2 = None) →
  ∃ m', redis.TTL_loop c ks m = (Some m', None)
        ∧ ∀ k, m' !! k = if decide (k ∈ ks)
                         then Some (redis.Seconds (goredis.TTL c k).1)
                         else m !! k.
Proof.
  revert m. induction ks as [|key ks IH]; intros m Hok.
  - exists m. split; [done |]. intros k.
    case_decide as Hin; [by apply elem_of_nil in Hin | done].
  - cbn [redis.TTL_loop]. pose proof (Hok key ltac:(left)) as Hkey.
    destruct (goredis.TTL c key) as [duration err] eqn:E. simpl in Hkey. subst err.
    destruct (IH (<[key := redis.Seconds duration]> m)) as (m' & -> & Hm').
    { intros k Hin. apply Hok. by right. }
    exists m'. split; [done |]. intros k. rewrite Hm'.
    elem_cons_cases k key ks.
    + done.
    + by rewrite lookup_insert_eq, E.
    + by rewrite lookup_insert_ne.
Qed.

(** X5: [TTL] of the redis adapter, given valid keys and a client that
    reports no error, binds every given key to the client's reply in
    seconds, whether the server holds the key or not. *)
Theorem redis_TTL_binds_every_key {C} `{!goredis.UniversalClient C} (c : C)
    (ks : list string) :
  Forall valid_key ks →
  (∀ k, k ∈ ks → (goredis.TTL c k).2 = None) →
  ∃ m, redis.TTL c (Some ks) = (Some m, None)
       ∧ ∀ k, m !! k = if decide (k ∈ ks)
                       then Some (redis.Seconds (goredis.TTL c k).1)
                       else None.
Proof.
  intros Hv Hok. apply check_keys_None in Hv.
  unfold redis.TTL. rewrite Hv.
  destruct (redis_TTL_loop_spec c ks ∅ Hok) as (m & -> & Hm).
  exists m. split; [done |]. intros k. rewrite Hm.
  case_decide; [done | apply lookup_empty].
Qed.

Lemma redis_TTL_binds_every_key_witness :
  ∃ m, redis.TTL (∅ : goredis.server) (Some ["k"; "other"]) = (Some m, None)
       ∧ ∀ k, m !! k = if decide (k ∈ ["k"; "other"])
                       then Some (redis.Seconds (goredis.TTL (∅ : goredis.server) k).1)
                       else None.
Proof.
  apply (redis_TTL_binds_every_key (∅ : goredis.server) ["k"; "other"]).
  - repeat constructor; by vm_compute.
  - intros k _. cbn. unfold goredis.server_TTL. by repeat case_match.
Defined.

(** [MGet] of the redis adapter, given valid keys, returns the client's
    reply as it is, or the client's error. *)
Theorem redis_MGet_forwards {C} `{!goredis.UniversalClient C} (c : C)
    (ks : list string) :
  Forall valid_key ks →
  redis.MGet c (Some ks)
  = match goredis.MGet c ks with
    | (_, Some err) => (None, Some err)
    | (res, None) => (res, None)
    end.
Proof.
  intros Hv. apply check_keys_None in Hv. unfold redis.MGet. by rewrite Hv.
Qed.

Lemma redis_MGet_forwards_witness :
  redis.MGet ({[ "k" := ("v", None) ]} : goredis.server) (Some ["k"; "other"])
  = match goredis.MGet ({[ "k" := ("v", None) ]} : goredis.server) ["k"; "other"] with
    | (_, Some err) => (None, Some err)
    | (res, None) => (res, None)
    end.
Proof.
  apply (redis_MGet_forwards ({[ "k" := ("v", None) ]} : goredis.server)
           ["k"; "other"]).
  repeat constructor; by vm_compute.
Defined.

Section rpc_more.
Context {σ any : Type} `{!rpc.Storage σ any}.
Implicit Types (svc : gmap string σ).

(** X6: [RpcServer.Set] panics on the first item it decodes, whatever the
    registry and the storages named: the registry is left as it was. *)
Theorem rpc_Set_panics_on_items (sch : rpc.schedule) svc (in_ : rpc.SetData) :
  rpc.SetData_Items in_ ≠ [] →
  rpc.RpcServer.Set_ sch svc in_ = (svc, rpc.Panic rpc.index_out_of_range).
Proof.
  intros Hne. unfold rpc.RpcServer.Set_, rpc.ItemsLength.
  destruct (rpc.SetData_Items in_) as [|it its] eqn:E; [done |].
  cbn [length seq rpc.RpcServer.Set_items]. unfold rpc.Items_at. by rewrite E.
Qed.

End rpc_more.

Lemma rpc_Set_panics_on_items_witness :
  let svc : gmap string rpc.table := {[ "first" := ∅ ]} in
  let in_ := rpc.mkSetData [rpc.mkDataItem "k" "v" ""] ["first"; "missing"] in
  rpc.RpcServer.Set_ rpc.in_order svc in_
  = (svc, rpc.Panic rpc.index_out_of_range).
Proof.
  apply (rpc_Set_panics_on_items rpc.in_order
           ({[ "first" := ∅ ]} : gmap string rpc.table)
           (rpc.mkSetData [rpc.mkDataItem "k" "v" ""] ["first"; "missing"])).
  by vm_compute.
Defined.


(** ** The in-memory storage: invariants and compositions *)

Section memory_more.
Implicit Types (s : gmap string kv.Item) (ks : list string) (k : string).

Lemma Set_loop_keyed clock i s (items : list kv.Item) :
  keyed s → keyed (memory.Set_loop clock i s items).
Proof.
  revert i s. induction items as [|it items IH]; intros i s Hs; [done |].
  cbn [memory.Set_loop].
  destruct (decide (kv.TTL it > 0)); apply IH; by apply map_Forall_insert_2.
Qed.

Lemma MExpire_loop_keyed ut s ks : keyed s → keyed (memory.MExpire_loop ut s ks).
Proof.
  revert s. induction ks as [|key ks IH]; intros s Hs; [done |].
  cbn [memory.MExpire_loop]. destruct (s !! key) as [item|] eqn:Hkey; [| by apply IH].
  apply IH. apply map_Forall_insert_2; [| done]. by apply (Hs key item).
Qed.

Lemma Delete_loop_keyed s ks : keyed s → keyed (memory.Delete_loop s ks).
Proof.
  revert s. induction ks as [|key ks IH]; intros s Hs; [done |].
  cbn [memory.Delete_loop]. apply IH. by apply map_Forall_delete.
Qed.

Lemma gcPhase_lookup sigs s k :
  memory.gcPhase sigs s !! k
  = match s !! k with
    | Some v =>
        if decide (Forall (λ now, time.Unix now ≤ kv.TTL v) (ticks_before_stop sigs))
        then Some v else None
    | None => None
    end.
Proof.
  revert s. induction sigs as [|[|now] sigs IH]; intros s.
  - cbn. by destruct (s !! k).
  - cbn. by destruct (s !! k).
  - cbn [memory.gcPhase ticks_before_stop]. rewrite IH, gc_sweep_lookup.
    destruct (s !! k) as [v|]; [| done].
    destruct (decide (time.Unix now > kv.TTL v)) as [Hgt | Hle].
    + rewrite decide_False; [done |]. intros [? _]%Forall_cons_1. lia.
    + destruct (decide (Forall _ (ticks_before_stop sigs))) as [Hall | Hnot].
      * rewrite decide_True; [done |]. constructor; [lia | done].
      * rewrite decide_False; [done |]. by intros [_ ?]%Forall_cons_1.
Qed.

(** X7: the operations that write the heap and the reaper keep every
    entry under the key its item carries. *)
Theorem heap_stays_keyed clock now s (items : slice kv.Item) (timeout : Z)
    (keys : slice string) (sigs : list memory.signal) :
  keyed s →
  keyed (memory.Set_ clock s items).1
  ∧ keyed (memory.MExpire now s timeout keys).1
  ∧ keyed (memory.Delete s keys).1
  ∧ keyed (memory.gcPhase sigs s).
Proof.
  intros Hs. repeat split.
  - destruct items as [its|]; [| done]. by apply Set_loop_keyed.
  - unfold memory.MExpire. case_decide; [done |]. by apply MExpire_loop_keyed.
  - destruct keys as [ks|]; [| done]. unfold memory.Delete.
    destruct (check_keys ks); [done |]. by apply Delete_loop_keyed.
  - intros k item Hk. rewrite gcPhase_lookup in Hk.
    destruct (s !! k) as [v|] eqn:Hv; [| done].
    case_decide; [| done]. injection Hk as <-. by apply (Hs k v).
Qed.

Lemma heap_stays_keyed_witness :
  let s := (memory.Set_ (λ _, time.FromUnix 100 0) ∅
              (Some [kv.mkItem "a" "1" 0; kv.mkItem "b" "2" 5])).1 in
  keyed (memory.Set_ (λ _, time.FromUnix 101 0) s (Some [kv.mkItem "a" "3" 9])).1
  ∧ keyed (memory.MExpire (time.FromUnix 101 0) s 7 (Some ["a"; "c"])).1
  ∧ keyed (memory.Delete s (Some ["a"; "c"])).1
  ∧ keyed (memory.gcPhase [memory.Tick (time.FromUnix 102 0)] s).
Proof.
  apply (heap_stays_keyed (λ _, time.FromUnix 101 0) (time.FromUnix 101 0)
           (memory.Set_ (λ _, time.FromUnix 100 0) ∅
              (Some [kv.mkItem "a" "1" 0; kv.mkItem "b" "2" 5])).1
           (Some [kv.mkItem "a" "3" 9]) 7 (Some ["a"; "c"])
           [memory.Tick (time.FromUnix 102 0)]).
  apply Set_loop_keyed, map_Forall_empty.
Defined.

(** X8: [MExpire], whatever its arguments and whether it fails, creates
    no entry, removes none and changes no entry's key or value. *)
Theorem MExpire_keeps_keys_and_values (now : time.Time) s (timeout : Z)
    (keys : slice string) k :
  kv.Key <$> (memory.MExpire now s timeout keys).1 !! k = kv.Key <$> s !! k
  ∧ kv.Value <$> (memory.MExpire now s timeout keys).1 !! k = kv.Value <$> s !! k.
Proof.
  unfold memory.MExpire. case_decide; [done |]. cbn [fst].
  destruct (decide (k ∈ elems keys)) as [Hin | Hout].
  - rewrite MExpire_loop_lookup by done. by destruct (s !! k).
  - by rewrite MExpire_loop_frame.
Qed.

(** X9: [Delete] of valid keys none of which has an entry reports no
    error and leaves the heap as it is. *)
Theorem Delete_absent_keys s ks :
  Forall valid_key ks →
  (∀ k, k ∈ ks → s !! k = None) →
  memory.Delete s (Some ks) = (s, None).
Proof.
  intros Hv Habs. apply check_keys_None in Hv.
  unfold memory.Delete. rewrite Hv. f_equal.
  apply map_eq. intros k. rewrite Delete_loop_lookup.
  case_decide; [by rewrite Habs | done].
Qed.

Lemma Delete_absent_keys_witness :
  memory.Delete one_second_entry (Some ["x"; "y"]) = (one_second_entry, None).
Proof.
  apply (Delete_absent_keys one_second_entry ["x"; "y"]).
  - repeat constructor; by vm_compute.
  - intros k [-> | [-> | []%elem_of_nil]%elem_of_cons]%elem_of_cons; by vm_compute.
Defined.

(** X10: what [gcPhase] leaves of the heap after any run of signals: an
    entry survives exactly when its stored [TTL] is at least the Unix
    second of every tick received before the first [Stop], and it survives
    unchanged; ticks after a [Stop] evict nothing, and no entry is ever
    added. *)
Theorem gcPhase_keeps_unexpired (sigs : list memory.signal) s k :
  memory.gcPhase sigs s !! k
  = match s !! k with
    | Some v =>
        if decide (Forall (λ now, time.Unix now ≤ kv.TTL v) (ticks_before_stop sigs))
        then Some v else None
    | None => None
    end.
Proof. apply gcPhase_lookup. Qed.

(** X11: for a valid key the four reads agree on presence: [Has] binds the
    key to true exactly when [Get] returns a value, when [TTL] binds the
    key, and when [MGet] returns one item. *)
Theorem reads_agree_on_presence s (key : string) :
  valid_key key →
  ∃ has ttl res,
    memory.Has s (Some [key]) = (Some has, None)
    ∧ memory.TTL s (Some [key]) = (Some ttl, None)
    ∧ memory.MGet s (Some [key]) = (Some res, None)
    ∧ (has !! key = Some true ↔ ∃ v, memory.Get s key = (Some v, None))
    ∧ (has !! key = Some true ↔ is_Some (ttl !! key))
    ∧ (has !! key = Some true ↔ length res = 1%nat).
Proof.
  intros Hv. unfold memory.Has, memory.TTL, memory.MGet, memory.Get.
  cbn [check_keys memory.Has_loop memory.TTL_loop memory.MGet_loop].
  rewrite !decide_False by done.
  destruct (s !! key) as [item|] eqn:Hkey;
    eexists _, _, _; (split; [done |]); (split; [done |]); (split; [done |]);
    rewrite ?lookup_insert_eq, ?lookup_empty; cbn [length app];
    repeat split; try done; try (by eexists);
    try (by intros [? [=]]); by intros [? ?].
Qed.

Lemma reads_agree_on_presence_witness :
  ∃ has ttl res,
    memory.Has one_second_entry (Some ["k"]) = (Some has, None)
    ∧ memory.TTL one_second_entry (Some ["k"]) = (Some ttl, None)
    ∧ memory.MGet one_second_entry (Some ["k"]) = (Some res, None)
    ∧ (has !! "k" = Some true ↔ ∃ v, memory.Get one_second_entry "k" = (Some v, None))
    ∧ (has !! "k" = Some true ↔ is_Some (ttl !! "k"))
    ∧ (has !! "k" = Some true ↔ length res = 1%nat).
Proof.
  apply (reads_agree_on_presence one_second_entry "k"). by vm_compute.
Defined.

End memory_more.

Section memory_compositions.
Implicit Types (s : gmap string kv.Item) (ks : list string) (k : string).

Lemma Set_loop_app clock i s (l1 l2 : list kv.Item) :
  memory.Set_loop clock i s (l1 ++ l2)
  = memory.Set_loop clock (i + length l1) (memory.Set_loop clock i s l1) l2.
Proof.
  revert i s. induction l1 as [|x l1 IH]; intros i s.
  - cbn. by rewrite Nat.add_0_r.
  - cbn [app memory.Set_loop length].
    replace (i + S (length l1))%nat with (S i + length l1)%nat by lia.
    destruct (decide (kv.TTL x > 0)); apply IH.
Qed.

(** X12: in a batch given to [Set], the last item that carries a key
    decides the entry of that key, whatever the heap and the earlier items
    held: the entry has that item's value, and expiry 0 when its TTL is not
    positive, the expiry computed at that item's clock reading otherwise;
    [Get] of the key, when it is valid, then returns that value. *)
Theorem Set_last_write_wins clock s (l1 l2 : list kv.Item) (it : kv.Item) :
  kv.Key it ∉ kv.Key <$> l2 →
  let s' := (memory.Set_ clock s (Some (l1 ++ it :: l2))).1 in
  s' !! kv.Key it
  = Some (kv.mkItem (kv.Key it) (kv.Value it)
            (if decide (kv.TTL it > 0)
             then memory.expiry (clock (length l1)) (kv.TTL it) else 0))
  ∧ (valid_key (kv.Key it) →
     memory.Get s' (kv.Key it) = (Some (kv.Value it), None)).
Proof.
  intros Hlast s'.
  assert (s' !! kv.Key it
          = Some (kv.mkItem (kv.Key it) (kv.Value it)
                    (if decide (kv.TTL it > 0)
                     then memory.expiry (clock (length l1)) (kv.TTL it) else 0)))
    as Hlook.
  { subst s'. cbn [memory.Set_ fst]. rewrite Set_loop_app, Nat.add_0_l.
    cbn [memory.Set_loop].
    destruct (decide (kv.TTL it > 0));
      rewrite Set_loop_frame by done; by rewrite lookup_insert_eq. }
  split; [done |]. intros Hv.
  unfold memory.Get. rewrite decide_False by done. by rewrite Hlook.
Qed.

Lemma Set_last_write_wins_witness :
  let it := kv.mkItem "a" "new" 5 in
  let l1 := [kv.mkItem "a" "old" 0; kv.mkItem "b" "2" 0] in
  let l2 := [kv.mkItem "c" "3" 0] in
  let clock := λ i : nat, time.FromUnix (100 + Z.of_nat i) 0 in
  let s' := (memory.Set_ clock {[ "a" := kv.mkItem "a" "older" 0 ]}
               (Some (l1 ++ it :: l2))).1 in
  s' !! kv.Key it
  = Some (kv.mkItem (kv.Key it) (kv.Value it)
            (if decide (kv.TTL it > 0)
             then memory.expiry (clock (length l1)) (kv.TTL it) else 0))
  ∧ (valid_key (kv.Key it) →
     memory.Get s' (kv.Key it) = (Some (kv.Value it), None)).
Proof.
  apply (Set_last_write_wins (λ i : nat, time.FromUnix (100 + Z.of_nat i) 0)
           {[ "a" := kv.mkItem "a" "older" 0 ]}
           [kv.mkItem "a" "old" 0; kv.mkItem "b" "2" 0]
           [kv.mkItem "c" "3" 0] (kv.mkItem "a" "new" 5)).
  apply (bool_decide_unpack _). by vm_compute.
Defined.

(** X13: after [MExpire] with a timeout other than 0, [TTL] of the same
    valid keys binds each key that had an entry to the new expiry and
    leaves out the keys that had none. *)
Theorem MExpire_then_TTL (now : time.Time) s (timeout : Z) ks :
  timeout ≠ 0 →
  Forall valid_key ks →
  ∃ s' m,
    memory.MExpire now s timeout (Some ks) = (s', None)
    ∧ memory.TTL s' (Some ks) = (Some m, None)
    ∧ ∀ k, m !! k = if decide (k ∈ ks ∧ is_Some (s !! k))
                    then Some (memory.expiry now timeout) else None.
Proof.
  intros Ht Hv. apply check_keys_None in Hv.
  unfold memory.MExpire, memory.TTL.
  rewrite decide_False by (by intros [? | ?]). rewrite Hv.
  eexists _, _. split; [done |]. split; [done |].
  intros k. rewrite TTL_loop_lookup, lookup_empty. cbn [elems default].
  destruct (decide (k ∈ ks)) as [Hin | Hout].
  - rewrite MExpire_loop_lookup by done.
    destruct (s !! k) as [item|] eqn:Hk; cbn.
    + rewrite decide_True; [done |]. split; [done | by eexists].
    + rewrite decide_False; [done |]. by intros [_ [? ?]].
  - rewrite decide_False; [done |]. by intros [? _].
Qed.

Lemma MExpire_then_TTL_witness :
  ∃ s' m,
    memory.MExpire (time.FromUnix 101 0) one_second_entry 9 (Some ["k"; "x"])
    = (s', None)
    ∧ memory.TTL s' (Some ["k"; "x"]) = (Some m, None)
    ∧ ∀ k, m !! k = if decide (k ∈ ["k"; "x"] ∧ is_Some (one_second_entry !! k))
                    then Some (memory.expiry (time.FromUnix 101 0) 9) else None.
Proof.
  apply (MExpire_then_TTL (time.FromUnix 101 0) one_second_entry 9 ["k"; "x"]).
  - lia.
  - repeat constructor; by vm_compute.
Defined.

(** X14: [Set] of items with valid keys followed by [Delete] of those
    keys leaves no entry under any of them and every other entry of the
    heap as it was before the [Set]. *)
Theorem Set_then_Delete clock s (items : list kv.Item) k :
  Forall valid_key (kv.Key <$> items) →
  ∃ s1 s2,
    memory.Set_ clock s (Some items) = (s1, None)
    ∧ memory.Delete s1 (Some (kv.Key <$> items)) = (s2, None)
    ∧ s2 !! k = if decide (k ∈ kv.Key <$> items) then None else s !! k.
Proof.
  intros Hv. apply check_keys_None in Hv.
  unfold memory.Delete. rewrite Hv. cbn [memory.Set_].
  eexists _, _. split; [done |]. split; [done |].
  rewrite Delete_loop_lookup. case_decide; [done |]. by apply Set_loop_frame.
Qed.

Lemma Set_then_Delete_witness :
  let items := [kv.mkItem "k" "new" 0; kv.mkItem "b" "2" 5] in
  ∃ s1 s2,
    memory.Set_ (λ _, time.FromUnix 100 0) one_second_entry (Some items) = (s1, None)
    ∧ memory.Delete s1 (Some (kv.Key <$> items)) = (s2, None)
    ∧ s2 !! "k" = if decide ("k" ∈ kv.Key <$> items) then None
                  else one_second_entry !! "k".
Proof.
  apply (Set_then_Delete (λ _, time.FromUnix 100 0) one_second_entry
           [kv.mkItem "k" "new" 0; kv.mkItem "b" "2" 5] "k").
  repeat constructor; by vm_compute.
Defined.

(** X15: the expiry wraps with the 64-bit count of nanoseconds: an item
    given to [Set] with a TTL whose nanoseconds lie between 2^63 and 2^64
    is stored with an expiry that is not after the clock's second, and the
    first sweep in a later second evicts it. *)
Theorem Set_TTL_overflow (now tick : time.Time) (key value : string) (ttl : Z) :
  2 ^ 63 ≤ time.Second * ttl < 2 ^ 64 →
  time.Unix now < time.Unix tick →
  let s := (memory.Set_ (λ _, now) ∅ (Some [kv.mkItem key value ttl])).1 in
  (∃ item, s !! key = Some item ∧ kv.TTL item ≤ time.Unix now)
  ∧ memory.gcPhase [memory.Tick tick] s !! key = None.
Proof.
  intros Hr Htick s.
  assert (memory.expiry now ttl ≤ time.Unix now) as Hexp.
  { unfold memory.expiry, time.mul, time.Duration, time.Add.
    rewrite Unix_FromUnix. unfold time.wrap64.
    replace ((time.Second * ttl + 2 ^ 63) `mod` 2 ^ 64)
      with (time.Second * ttl + 2 ^ 63 - 2 ^ 64).
    - unfold time.Unix. apply Z.div_le_mono; [done |]. lia.
    - apply Z.mod_unique with (q := 1); lia. }
  assert (s !! key = Some (kv.mkItem key value (memory.expiry now ttl))) as Hs.
  { subst s. cbn [memory.Set_ fst memory.Set_loop kv.TTL kv.Key kv.Value].
    rewrite decide_True by (unfold time.Second in Hr; lia).
    by rewrite lookup_insert_eq. }
  split.
  - eexists. split; [exact Hs | done].
  - cbn [memory.gcPhase]. rewrite gc_sweep_lookup, Hs. cbn [kv.TTL].
    rewrite decide_True; [done | lia].
Qed.

Lemma Set_TTL_overflow_witness :
  let s := (memory.Set_ (λ _, time.FromUnix 100 0) ∅
              (Some [kv.mkItem "k" "v" 9223372037])).1 in
  (∃ item, s !! "k" = Some item ∧ kv.TTL item ≤ time.Unix (time.FromUnix 100 0))
  ∧ memory.gcPhase [memory.Tick (time.FromUnix 101 0)] s !! "k" = None.
Proof.
  apply (Set_TTL_overflow (time.FromUnix 100 0) (time.FromUnix 101 0)
           "k" "v" 9223372037); by vm_compute.
Defined.

End memory_compositions.

(** ** The redis adapter: validation and failures *)

Section redis_more.
Context {C : Type} `{!goredis.UniversalClient C}.
Implicit Types (c : C) (ks : list string).

Lemma redis_Has_loop_spec c ks (m : gmap string bool) :
  Forall valid_key ks →
  (∀ k, k ∈ ks → ∃ n, goredis.Exists c k = (n, None) ∧ (n = 0 ∨ n = 1)) →
  ∃ m', redis.Has_loop c ks m = (Some m', None)
        ∧ ∀ k, m' !! k = if decide (k ∈ ks)
                         then Some (bool_decide ((goredis.Exists c k).1 = 1))
                         else m !! k.
Proof.
  intros Hv. revert m. induction Hv as [|key ks Hkey _ IH]; intros m Hok.
  - exists m. split; [done |]. intros k.
    case_decide as Hin; [by apply elem_of_nil in Hin | done].
  - cbn [redis.Has_loop]. rewrite decide_False by done.
    destruct (Hok key ltac:(left)) as (n & Hn & Hcases). rewrite Hn.
    assert (∀ k, k ∈ ks → ∃ n, goredis.Exists c k = (n, None) ∧ (n = 0 ∨ n = 1))
      as Hok' by (intros k Hin; apply Hok; by right).
    assert (∃ m', redis.Has_loop c ks (<[key := bool_decide (n = 1)]> m)
                  = (Some m', None)
                  ∧ ∀ k, m' !! k = if decide (k ∈ ks)
                                   then Some (bool_decide ((goredis.Exists c k).1 = 1))
                                   else <[key := bool_decide (n = 1)]> m !! k)
      as (m' & Hm' & Hlook) by (by apply IH).
    exists m'. split.
    + destruct Hcases as [-> | ->]; by rewrite <- Hm'.
    + intros k. rewrite Hlook. elem_cons_cases k key ks.
      * done.
      * by rewrite lookup_insert_eq, Hn.
      * by rewrite lookup_insert_ne.
Qed.

(** X16: [Has] of the redis adapter, given valid keys for each of which the
    client answers 0 or 1 with no error, binds every given key to whether
    the answer was 1. *)
Theorem redis_Has_reports_exists c ks :
  Forall valid_key ks →
  (∀ k, k ∈ ks → ∃ n, goredis.Exists c k = (n, None) ∧ (n = 0 ∨ n = 1)) →
  ∃ m, redis.Has c (Some ks) = (Some m, None)
       ∧ ∀ k, m !! k = if decide (k ∈ ks)
                       then Some (bool_decide ((goredis.Exists c k).1 = 1))
                       else None.
Proof.
  intros Hv Hok. destruct (redis_Has_loop_spec c ks ∅ Hv Hok) as (m & Hm & Hlook).
  exists m. split; [done |]. intros k. rewrite Hlook.
  case_decide; [done | apply lookup_empty].
Qed.

Lemma redis_Set_loop_app c (l1 l2 : list kv.Item) :
  redis.Set_loop c (l1 ++ l2)
  = match redis.Set_loop c l1 with
    | (c', None) => redis.Set_loop c' l2
    | (c', Some err) => (c', Some err)
    end.
Proof.
  revert c. induction l1 as [|x l1 IH]; intros c; [done |].
  cbn [app redis.Set_loop]. case_decide; [done |].
  destruct (goredis.Set_ c _ _ _) as [c' [err|]]; [done | apply IH].
Qed.

(** X17: [Set] of the redis adapter is not transactional: when the items
    before some item of the batch were all stored, and that item is the
    empty item or the client fails on it, the call returns that error, the
    items before it stay stored and the items after it are not sent. *)
Theorem redis_Set_keeps_prefix c (c' : C) (pre rest : list kv.Item) :
  redis.Set_ c (Some pre) = (c', None) →
  redis.Set_ c (Some (pre ++ kv.EmptyItem :: rest)) = (c', Some ErrEmptyItem)
  ∧ ∀ (item : kv.Item) (c'' : C) (err : error),
      item ≠ kv.EmptyItem →
      goredis.Set_ c' (kv.Key item) (kv.Value item)
        (time.mul time.Second (time.Duration (kv.TTL item))) = (c'', Some err) →
      redis.Set_ c (Some (pre ++ item :: rest)) = (c'', Some err).
Proof.
  cbn [redis.Set_]. intros Hpre. split.
  - rewrite redis_Set_loop_app, Hpre. cbn [redis.Set_loop]. by rewrite decide_True.
  - intros item c'' err Hne Hfail.
    rewrite redis_Set_loop_app, Hpre. cbn [redis.Set_loop].
    rewrite decide_False by done. by rewrite Hfail.
Qed.

Lemma redis_Has_loop_blank c ks (m : gmap string bool) (key : string) :
  key ∈ ks → ¬ valid_key key → ∃ err, redis.Has_loop c ks m = (None, Some err).
Proof.
  revert m. induction ks as [|k ks IH]; intros m Hin Hbad;
    [by apply elem_of_nil in Hin |].
  cbn [redis.Has_loop]. case_decide as Hk; [by eexists |].
  apply elem_of_cons in Hin as [-> | Hin]; [by destruct Hbad |].
  destruct (goredis.Exists c k) as [n [err|]]; [by eexists |].
  repeat case_decide; by apply IH.
Qed.

(** X18: the redis adapter rejects a blank key before it sends anything:
    [Get], [MGet], [TTL] and [Delete] return [ErrEmptyKey], [Delete]
    leaving the client as it was, and [Has] returns an error and no map. *)
Theorem redis_blank_key_rejected c ks (key : string) :
  key ∈ ks →
  ¬ valid_key key →
  redis.Get c key = (None, Some ErrEmptyKey)
  ∧ redis.MGet c (Some ks) = (None, Some ErrEmptyKey)
  ∧ redis.TTL c (Some ks) = (None, Some ErrEmptyKey)
  ∧ redis.Delete c (Some ks) = (c, Some ErrEmptyKey)
  ∧ ∃ err, redis.Has c (Some ks) = (None, Some err).
Proof.
  intros Hin Hbad. pose proof (check_keys_blank ks key Hin Hbad) as Hc.
  unfold redis.Get, redis.MGet, redis.TTL, redis.Delete, redis.Has.
  rewrite Hc. repeat split.
  - case_decide; [done |]. by destruct Hbad.
  - by eapply redis_Has_loop_blank.
Qed.

End redis_more.

Lemma redis_Has_reports_exists_witness :
  let c : goredis.server := {[ "k" := ("v", None) ]} in
  ∃ m, redis.Has c (Some ["k"; "other"]) = (Some m, None)
       ∧ ∀ k, m !! k = if decide (k ∈ ["k"; "other"])
                       then Some (bool_decide ((goredis.Exists c k).1 = 1))
                       else None.
Proof.
  apply (redis_Has_reports_exists ({[ "k" := ("v", None) ]} : goredis.server)
           ["k"; "other"]).
  - repeat constructor; by vm_compute.
  - intros k _. cbn. unfold goredis.server_Exists.
    destruct (_ !! k); eexists; (split; [done |]); auto.
Defined.

Lemma redis_Set_keeps_prefix_witness :
  let pre := [kv.mkItem "a" "1" 0; kv.mkItem "b" "2" 5] in
  let rest := [kv.mkItem "c" "3" 0] in
  let c' : goredis.server :=
    {[ "a" := ("1", None); "b" := ("2", Some (5 * time.Second)) ]} in
  redis.Set_ (∅ : goredis.server) (Some (pre ++ kv.EmptyItem :: rest))
  = (c', Some ErrEmptyItem)
  ∧ ∀ (item : kv.Item) (c'' : goredis.server) (err : error),
      item ≠ kv.EmptyItem →
      goredis.Set_ c' (kv.Key item) (kv.Value item)
        (time.mul time.Second (time.Duration (kv.TTL item))) = (c'', Some err) →
      redis.Set_ (∅ : goredis.server) (Some (pre ++ item :: rest)) = (c'', Some err).
Proof.
  apply (redis_Set_keeps_prefix (∅ : goredis.server)
           ({[ "a" := ("1", None); "b" := ("2", Some (5 * time.Second)) ]}
            : goredis.server)
           [kv.mkItem "a" "1" 0; kv.mkItem "b" "2" 5] [kv.mkItem "c" "3" 0]).
  by vm_compute.
Defined.

Lemma redis_blank_key_rejected_witness :
  let c : goredis.server := {[ "k" := ("v", None) ]} in
  redis.Get c " " = (None, Some ErrEmptyKey)
  ∧ redis.MGet c (Some ["k"; " "]) = (None, Some ErrEmptyKey)
  ∧ redis.TTL c (Some ["k"; " "]) = (None, Some ErrEmptyKey)
  ∧ redis.Delete c (Some ["k"; " "]) = (c, Some ErrEmptyKey)
  ∧ ∃ err, redis.Has c (Some ["k"; " "]) = (None, Some err).
Proof.
  apply (redis_blank_key_rejected ({[ "k" := ("v", None) ]} : goredis.server)
           ["k"; " "] " ").
  - apply (bool_decide_unpack _). by vm_compute.
  - intros Hv. apply Hv. by vm_compute.
Defined.

(** ** The RPC server: routing, forwarding and the fan-out of [Set] *)

Section rpc_handlers.
Context {σ any : Type} `{!rpc.Storage σ any}.
Implicit Types (svc : gmap string σ).

(** What a handler returns for the pair a storage returned. *)
Lemma read_call_known {R} svc storage (st : σ) (call : σ → R * option error) :
  svc !! storage = Some st →
  rpc.RpcServer.read_call svc storage call
  = match call st with
    | (_, Some err) => rpc.Return None (Some err)
    | (ret, None) => rpc.Return (Some ret) None
    end.
Proof. intros Hs. unfold rpc.RpcServer.read_call. by rewrite Hs. Qed.

Lemma write_call_frame svc storage (call : σ → σ * option error) (name : string) :
  name ≠ storage →
  (rpc.RpcServer.write_call svc storage call).1 !! name = svc !! name.
Proof.
  intros Hne. unfold rpc.RpcServer.write_call.
  destruct (svc !! storage) as [st|]; [| done].
  destruct (call st) as [st' [err|]]; cbn [fst]; by rewrite lookup_insert_ne.
Qed.

Lemma MExpire_items (in_ : rpc.Data) :
  foldl (λ it i, it ++ [rpc.mkItem (rpc.Keys_at in_ i) "" (rpc.Data_Timeout in_)])
    [] (seq 0 (rpc.KeysLength in_))
  = (λ key, rpc.mkItem key "" (rpc.Data_Timeout in_)) <$> rpc.Data_Keys in_.
Proof.
  unfold rpc.KeysLength, rpc.Keys_at.
  generalize (rpc.Data_Timeout in_) as timeout. generalize (rpc.Data_Keys in_) as l.
  clear in_. intros l timeout.
  induction l as [|x l IH] using rev_ind; [done |].
  rewrite length_app, Nat.add_1_r, seq_S, foldl_app, fmap_app. cbn [foldl Nat.add].
  rewrite lookup_app_r, Nat.sub_diag by done. cbn [lookup list_lookup default fmap list_fmap].
  f_equal. etrans; [| exact IH].
  apply foldl_ext_elem. intros acc i Hi%elem_of_seq.
  by rewrite lookup_app_l by lia.
Qed.

(** X19: [Get] takes the first key of the request: with no key at all it
    panics on the index, whatever the registry holds. *)
Theorem rpc_Get_without_keys_panics svc (in_ : rpc.Data) :
  rpc.Data_Keys in_ = [] →
  rpc.RpcServer.Get svc in_ = rpc.Panic rpc.index_out_of_range.
Proof.
  intros Hk. unfold rpc.RpcServer.Get. by rewrite decode_keys_Keys, Hk.
Qed.

(** X20: [Get] for a storage the registry holds asks that storage for the
    first key of the request only, and returns its value, or its error. *)
Theorem rpc_Get_forwards_first_key svc (in_ : rpc.Data) (st : σ)
    (key0 : string) (others : list string) :
  rpc.Data_Keys in_ = key0 :: others →
  svc !! rpc.Data_Storage in_ = Some st →
  rpc.RpcServer.Get svc in_
  = match rpc.storage_Get st key0 with
    | (_, Some err) => rpc.Return None (Some err)
    | (ret, None) => rpc.Return (Some ret) None
    end.
Proof.
  intros Hk Hs. unfold rpc.RpcServer.Get. rewrite decode_keys_Keys, Hk.
  cbn [lookup list_lookup].
  exact (read_call_known svc _ st (λ st, rpc.storage_Get st key0) Hs).
Qed.

(** X21: [Has], [MGet] and [TTL] for a storage the registry holds pass
    the request's keys, in order and as a slice that is not nil, to that
    storage and return its map, or its error. *)
Theorem rpc_reads_forward svc (in_ : rpc.Data) (st : σ) :
  svc !! rpc.Data_Storage in_ = Some st →
  rpc.RpcServer.Has svc in_
  = match rpc.storage_Has st (Some (rpc.Data_Keys in_)) with
    | (_, Some err) => rpc.Return None (Some err)
    | (ret, None) => rpc.Return (Some ret) None
    end
  ∧ rpc.RpcServer.MGet svc in_
    = match rpc.storage_MGet st (Some (rpc.Data_Keys in_)) with
      | (_, Some err) => rpc.Return None (Some err)
      | (ret, None) => rpc.Return (Some ret) None
      end
  ∧ rpc.RpcServer.TTL svc in_
    = match rpc.storage_TTL st (Some (rpc.Data_Keys in_)) with
      | (_, Some err) => rpc.Return None (Some err)
      | (ret, None) => rpc.Return (Some ret) None
      end.
Proof.
  intros Hs. unfold rpc.RpcServer.Has, rpc.RpcServer.MGet, rpc.RpcServer.TTL.
  rewrite decode_keys_Keys. split; [| split].
  - exact (read_call_known svc _ st
             (λ st, rpc.storage_Has st (Some (rpc.Data_Keys in_))) Hs).
  - exact (read_call_known svc _ st
             (λ st, rpc.storage_MGet st (Some (rpc.Data_Keys in_))) Hs).
  - exact (read_call_known svc _ st
             (λ st, rpc.storage_TTL st (Some (rpc.Data_Keys in_))) Hs).
Qed.

(** X22: [MExpire] for a storage the registry holds gives that storage one
    item per key of the request, in order, with an empty value and the
    request's timeout as TTL; [Delete] gives it the request's keys, and
    [Close] closes it. The registry then holds the storage as the call left
    it, and the handler reports true, or the storage's error. *)
Theorem rpc_writes_forward svc (in_ : rpc.Data) (st : σ) :
  svc !! rpc.Data_Storage in_ = Some st →
  let items := (λ key, rpc.mkItem key "" (rpc.Data_Timeout in_)) <$> rpc.Data_Keys in_ in
  let report (r : σ * option error) : gmap string σ * rpc.outcome bool :=
    (<[rpc.Data_Storage in_ := r.1]> svc,
     match r.2 with
     | Some err => rpc.Return None (Some err)
     | None => rpc.Return (Some true) None
     end) in
  rpc.RpcServer.MExpire svc in_ = report (rpc.storage_MExpire st (Some items))
  ∧ rpc.RpcServer.Delete svc in_
    = report (rpc.storage_Delete st (Some (rpc.Data_Keys in_)))
  ∧ rpc.RpcServer.Close svc (rpc.Data_Storage in_) = report (rpc.storage_Close st).
Proof.
  intros Hs items report. subst items report.
  unfold rpc.RpcServer.MExpire, rpc.RpcServer.Delete, rpc.RpcServer.Close,
    rpc.RpcServer.write_call.
  rewrite MExpire_items, decode_keys_Keys, Hs. split; [| split].
  - by destruct (rpc.storage_MExpire st _) as [st' [err|]].
  - by destruct (rpc.storage_Delete st _) as [st' [err|]].
  - by destruct (rpc.storage_Close st) as [st' [err|]].
Qed.

(** X23: [MExpire], [Delete] and [Close] leave every storage of the
    registry other than the one the request names as it was. *)
Theorem rpc_writes_leave_other_storages svc (in_ : rpc.Data) (name : string) :
  name ≠ rpc.Data_Storage in_ →
  (rpc.RpcServer.MExpire svc in_).1 !! name = svc !! name
  ∧ (rpc.RpcServer.Delete svc in_).1 !! name = svc !! name
  ∧ (rpc.RpcServer.Close svc (rpc.Data_Storage in_)).1 !! name = svc !! name.
Proof. intros Hne. repeat split; by apply write_call_frame. Qed.

End rpc_handlers.

Lemma rpc_Get_without_keys_panics_witness :
  let svc : gmap string rpc.table := {[ "memory" := {[ "k" := rpc.mkItem "k" "v" "" ]} ]} in
  rpc.RpcServer.Get svc (rpc.mkData "memory" [] "")
  = rpc.Panic rpc.index_out_of_range.
Proof.
  apply (rpc_Get_without_keys_panics
           ({[ "memory" := {[ "k" := rpc.mkItem "k" "v" "" ]} ]} : gmap string rpc.table)
           (rpc.mkData "memory" [] "")).
  reflexivity.
Defined.

Lemma rpc_Get_forwards_first_key_witness :
  let st : rpc.table := {[ "k" := rpc.mkItem "k" "v" "" ]} in
  let svc : gmap string rpc.table := {[ "memory" := st ]} in
  rpc.RpcServer.Get svc (rpc.mkData "memory" ["k"; "other"] "")
  = match rpc.storage_Get st "k" with
    | (_, Some err) => rpc.Return None (Some err)
    | (ret, None) => rpc.Return (Some ret) None
    end.
Proof.
  apply (rpc_Get_forwards_first_key
           ({[ "memory" := {[ "k" := rpc.mkItem "k" "v" "" ]} ]} : gmap string rpc.table)
           (rpc.mkData "memory" ["k"; "other"] "")
           {[ "k" := rpc.mkItem "k" "v" "" ]} "k" ["other"]).
  - reflexivity.
  - by vm_compute.
Defined.

Lemma rpc_reads_forward_witness :
  let st : rpc.table := {[ "k" := rpc.mkItem "k" "v" "5" ]} in
  let svc : gmap string rpc.table := {[ "memory" := st ]} in
  let in_ := rpc.mkData "memory" ["k"; "other"] "" in
  rpc.RpcServer.Has svc in_
  = match rpc.storage_Has st (Some (rpc.Data_Keys in_)) with
    | (_, Some err) => rpc.Return None (Some err)
    | (ret, None) => rpc.Return (Some ret) None
    end
  ∧ rpc.RpcServer.MGet svc in_
    = match rpc.storage_MGet st (Some (rpc.Data_Keys in_)) with
      | (_, Some err) => rpc.Return None (Some err)
      | (ret, None) => rpc.Return (Some ret) None
      end
  ∧ rpc.RpcServer.TTL svc in_
    = match rpc.storage_TTL st (Some (rpc.Data_Keys in_)) with
      | (_, Some err) => rpc.Return None (Some err)
      | (ret, None) => rpc.Return (Some ret) None
      end.
Proof.
  apply (rpc_reads_forward
           ({[ "memory" := {[ "k" := rpc.mkItem "k" "v" "5" ]} ]} : gmap string rpc.table)
           (rpc.mkData "memory" ["k"; "other"] "")
           {[ "k" := rpc.mkItem "k" "v" "5" ]}).
  by vm_compute.
Defined.

Lemma rpc_writes_forward_witness :
  let st : rpc.table := {[ "k" := rpc.mkItem "k" "v" "" ]} in
  let svc : gmap string rpc.table := {[ "memory" := st ]} in
  let in_ := rpc.mkData "memory" ["k"; "other"] "9" in
  let items := (λ key, rpc.mkItem key "" (rpc.Data_Timeout in_)) <$> rpc.Data_Keys in_ in
  let report (r : rpc.table * option error) : gmap string rpc.table * rpc.outcome bool :=
    (<[rpc.Data_Storage in_ := r.1]> svc,
     match r.2 with
     | Some err => rpc.Return None (Some err)
     | None => rpc.Return (Some true) None
     end) in
  rpc.RpcServer.MExpire svc in_ = report (rpc.storage_MExpire st (Some items))
  ∧ rpc.RpcServer.Delete svc in_
    = report (rpc.storage_Delete st (Some (rpc.Data_Keys in_)))
  ∧ rpc.RpcServer.Close svc (rpc.Data_Storage in_) = report (rpc.storage_Close st).
Proof.
  apply (rpc_writes_forward
           ({[ "memory" := {[ "k" := rpc.mkItem "k" "v" "" ]} ]} : gmap string rpc.table)
           (rpc.mkData "memory" ["k"; "other"] "9")
           {[ "k" := rpc.mkItem "k" "v" "" ]}).
  by vm_compute.
Defined.

Lemma rpc_writes_leave_other_storages_witness :
  let svc : gmap string rpc.table :=
    {[ "memory" := {[ "k" := rpc.mkItem "k" "v" "" ]};
       "redis" := {[ "k" := rpc.mkItem "k" "w" "" ]} ]} in
  let in_ := rpc.mkData "memory" ["k"] "9" in
  (rpc.RpcServer.MExpire svc in_).1 !! "redis" = svc !! "redis"
  ∧ (rpc.RpcServer.Delete svc in_).1 !! "redis" = svc !! "redis"
  ∧ (rpc.RpcServer.Close svc (rpc.Data_Storage in_)).1 !! "redis" = svc !! "redis".
Proof.
  apply (rpc_writes_leave_other_storages
           ({[ "memory" := {[ "k" := rpc.mkItem "k" "v" "" ]};
               "redis" := {[ "k" := rpc.mkItem "k" "w" "" ]} ]} : gmap string rpc.table)
           (rpc.mkData "memory" ["k"] "9") "redis").
  by vm_compute.
Defined.

Section rpc_fanout.
Context {σ any : Type} `{!rpc.Storage σ any}.
Implicit Types (svc : gmap string σ) (sch : rpc.schedule) (closures : list nat).



Lemma Set_fanout_outcome (in_ : rpc.SetData) sch (items : list rpc.Item)
    closures svc first :
  (∃ p, (rpc.RpcServer.Set_fanout in_ sch items closures svc first).2 = rpc.Panic p)
  ∨ (∃ err, (rpc.RpcServer.Set_fanout in_ sch items closures svc first).2
            = rpc.Return None err).
Proof.
  revert svc first. induction closures as [|k closures IH]; intros svc first.
  - right. by eexists.
  - cbn [rpc.RpcServer.Set_fanout].
    destruct (rpc.RpcServer.closure_storage in_ sch k) as [name|];
      [| left; by eexists].
    destruct (svc !! name) as [st|]; [| left; by eexists].
    destruct (rpc.storage_Set st (Some items)) as [st' err]. apply IH.
Qed.



(** X24: [Set] never writes its result: whatever the registry, the request
    and the schedule of its goroutines, when the handler returns, the
    caller's [ok] is left as it was, also when every storage succeeded. *)
Theorem rpc_Set_never_sets_ok sch svc (in_ : rpc.SetData) (ok : bool)
    (err : option error) :
  (rpc.RpcServer.Set_ sch svc in_).2 ≠ rpc.Return (Some ok) err.
Proof.
  unfold rpc.RpcServer.Set_.
  destruct (rpc.RpcServer.Set_items in_ _ []) as [items|]; [| done].
  destruct (Set_fanout_outcome in_ sch items (seq 0 (rpc.StoragesLength in_)) svc None)
    as [[p Hp] | [e He]]; congruence.
Qed.



End rpc_fanout.


